(** * ReadWriteMutex and RecursiveReadWriteMutex (src/ReadWriteMutex.cpp)

    Two layers of the source are embedded here.

    - [Recursive]: the per-thread reentrant wrapper [RecursiveReadWriteMutex]
      (lines 98-169).  Its four methods only read and write the two
      [thread_local std::size_t] counters of the calling thread and forward
      calls to the wrapped [ReadWriteMutex Rwmx]; they are embedded as
      computations in a small state-and-trace monad: the state is the pair of
      thread-local counters, the trace is the list of calls made on [Rwmx],
      in program order.

    - [Base]: the lock [ReadWriteMutex] itself (lines 16-84), embedded as an
      interleaving transition system whose program points are the source
      lines of the four methods.

    [Layers] runs the calls of the wrapper on the lock; [Usage] holds the
    demo of lines 171-298 and schedules of the lock. *)

From Stdlib Require Import ZArith List Bool Lia.
From stdpp Require Import base list.
Import ListNotations.

Local Open Scope Z_scope.

(** ** [std::size_t]: 64-bit unsigned arithmetic, wrap-around written out *)

Module SizeT.

Definition modulus : Z := 2 ^ 64.
Definition max : Z := modulus - 1.

Definition wrap (z : Z) : Z := z mod modulus.

(** [++x] and [--x] on an unsigned 64-bit object. *)
Definition incr (x : Z) : Z := wrap (x + 1).
Definition decr (x : Z) : Z := wrap (x - 1).

Definition in_range (x : Z) : Prop := 0 <= x < modulus.

End SizeT.

(** ** The reentrant wrapper *)

Module Recursive.

(** Calls a thread makes on the wrapped [ReadWriteMutex Rwmx]. *)
Inductive base_call : Set :=
| Rwmx_ReadLock
| Rwmx_ReadUnlock
| Rwmx_WriteLock
| Rwmx_WriteUnlock.

(** Lines 86-87: the two [thread_local std::size_t] counters of one thread. *)
Record thread_locals : Set := TLS {
  LocalThreadReadLockCounter : Z;
  LocalThreadWriteLockCounter : Z
}.

Definition clean : thread_locals := TLS 0 0.

Definition wf (st : thread_locals) : Prop :=
  SizeT.in_range (LocalThreadReadLockCounter st) /\
  SizeT.in_range (LocalThreadWriteLockCounter st).

(** State (the thread's counters) and trace (calls on [Rwmx], oldest first). *)
Definition M (A : Type) : Type :=
  thread_locals -> A * thread_locals * list base_call.

Definition ret {A} (a : A) : M A := fun st => (a, st, []).

Definition bind {A B} (m : M A) (k : A -> M B) : M B :=
  fun st =>
    let '(a, st1, t1) := m st in
    let '(b, st2, t2) := k a st1 in
    (b, st2, t1 ++ t2).

Notation "x <- m ;; k" := (bind m (fun x => k))
  (at level 100, m at next level, right associativity).
Notation "m ;; k" := (bind m (fun _ => k))
  (at level 100, right associativity).

Definition read_counter : M Z :=
  fun st => (LocalThreadReadLockCounter st, st, []).
Definition write_counter : M Z :=
  fun st => (LocalThreadWriteLockCounter st, st, []).

Definition incr_read_counter : M unit :=
  fun st => (tt, TLS (SizeT.incr (LocalThreadReadLockCounter st))
                     (LocalThreadWriteLockCounter st), []).
Definition decr_read_counter : M unit :=
  fun st => (tt, TLS (SizeT.decr (LocalThreadReadLockCounter st))
                     (LocalThreadWriteLockCounter st), []).
Definition incr_write_counter : M unit :=
  fun st => (tt, TLS (LocalThreadReadLockCounter st)
                     (SizeT.incr (LocalThreadWriteLockCounter st)), []).
Definition decr_write_counter : M unit :=
  fun st => (tt, TLS (LocalThreadReadLockCounter st)
                     (SizeT.decr (LocalThreadWriteLockCounter st)), []).

Definition Rwmx (c : base_call) : M unit := fun st => (tt, st, [c]).

Definition when (b : bool) (m : M unit) : M unit := if b then m else ret tt.

(** Lines 113-122. *)
Definition ReadLock : M unit :=
  wd <- write_counter ;;
  when (wd =? 0) (
    rd <- read_counter ;;
    when (rd =? 0) (Rwmx Rwmx_ReadLock) ;;
    incr_read_counter).

(** Lines 125-134. *)
Definition ReadUnlock : M unit :=
  wd <- write_counter ;;
  when (wd =? 0) (
    rd <- read_counter ;;
    when (rd =? 1) (Rwmx Rwmx_ReadUnlock) ;;
    decr_read_counter).

(** Lines 144-155. *)
Definition WriteLock : M unit :=
  wd <- write_counter ;;
  when (wd =? 0) (
    rd <- read_counter ;;
    when (0 <? rd) (Rwmx Rwmx_ReadUnlock) ;;
    Rwmx Rwmx_WriteLock) ;;
  incr_write_counter.

(** Lines 159-168. *)
Definition WriteUnlock : M unit :=
  wd <- write_counter ;;
  when (wd =? 1) (
    Rwmx Rwmx_WriteUnlock ;;
    rd <- read_counter ;;
    when (0 <? rd) (Rwmx Rwmx_ReadLock)) ;;
  decr_write_counter.

Definition state_after (m : M unit) (st : thread_locals) : thread_locals :=
  snd (fst (m st)).
Definition calls_of (m : M unit) (st : thread_locals) : list base_call :=
  snd (m st).

(** *** What the thread holds on [Rwmx]

    Ghost accounting of one thread's acquisitions on the wrapped lock: every
    returned [Rwmx.ReadLock()] adds a shared hold, every [Rwmx.ReadUnlock()]
    gives one back, likewise for the exclusive side. *)
Record hold : Set := Hold { shared_holds : Z; exclusive_holds : Z }.

Definition no_hold : hold := Hold 0 0.

Definition apply_call (h : hold) (c : base_call) : hold :=
  match c with
  | Rwmx_ReadLock => Hold (shared_holds h + 1) (exclusive_holds h)
  | Rwmx_ReadUnlock => Hold (shared_holds h - 1) (exclusive_holds h)
  | Rwmx_WriteLock => Hold (shared_holds h) (exclusive_holds h + 1)
  | Rwmx_WriteUnlock => Hold (shared_holds h) (exclusive_holds h - 1)
  end.

Definition apply_calls (h : hold) (cs : list base_call) : hold :=
  fold_left apply_call cs h.

Definition held_shared (h : hold) : bool := 0 <? shared_holds h.
Definition held_exclusive (h : hold) : bool := 0 <? exclusive_holds h.

(** *** Sequences of wrapper operations run by one thread *)

Inductive op : Set := OpReadLock | OpReadUnlock | OpWriteLock | OpWriteUnlock.

Definition method (o : op) : M unit :=
  match o with
  | OpReadLock => ReadLock
  | OpReadUnlock => ReadUnlock
  | OpWriteLock => WriteLock
  | OpWriteUnlock => WriteUnlock
  end.

(** One thread of the program: its counters and what it holds on [Rwmx]. *)
Record thread : Set := Thread { locals : thread_locals; held : hold }.

Definition fresh : thread := Thread clean no_hold.

Definition do_op (th : thread) (o : op) : thread :=
  Thread (state_after (method o) (locals th))
         (apply_calls (held th) (calls_of (method o) (locals th))).

Definition run_ops (ops : list op) (th : thread) : thread :=
  fold_left do_op ops th.

(** The calls on [Rwmx] made by each operation of the sequence, in order. *)
Fixpoint calls_each (ops : list op) (st : thread_locals)
  : list (list base_call) :=
  match ops with
  | [] => []
  | o :: rest =>
      calls_of (method o) st :: calls_each rest (state_after (method o) st)
  end.

Definition trace (ops : list op) (st : thread_locals) : list base_call :=
  concat (calls_each ops st).

(** *** Well-nested (balanced) sequences

    Lock calls open a bracket of their kind, unlock calls close the innermost
    open bracket, which has to be of the same kind. *)
Inductive kind : Set := KRead | KWrite.

Fixpoint nesting (open : list kind) (ops : list op) : option (list kind) :=
  match ops with
  | [] => Some open
  | OpReadLock :: rest => nesting (KRead :: open) rest
  | OpWriteLock :: rest => nesting (KWrite :: open) rest
  | OpReadUnlock :: rest =>
      match open with
      | KRead :: open' => nesting open' rest
      | _ => None
      end
  | OpWriteUnlock :: rest =>
      match open with
      | KWrite :: open' => nesting open' rest
      | _ => None
      end
  end.

(** One operation that respects the bracket discipline. *)
Definition bracket (open : list kind) (o : op) : option (list kind) :=
  nesting open [o].

Definition balanced (ops : list op) : bool :=
  match nesting [] ops with
  | Some [] => true
  | _ => false
  end.

(** *** Matched sequences, in the specification's words

    Second definition, following the word "balanced" and not the source:
    every unlock has an earlier lock of its kind that is still open, and at
    the end no lock is open.  Locks of different kinds may be closed in any
    order; [r] and [w] count the open locks of each kind. *)
Fixpoint matching (r w : nat) (ops : list op) : bool :=
  match ops with
  | [] => Nat.eqb r 0 && Nat.eqb w 0
  | OpReadLock :: rest => matching (S r) w rest
  | OpWriteLock :: rest => matching r (S w) rest
  | OpReadUnlock :: rest =>
      match r with
      | S r' => matching r' w rest
      | O => false
      end
  | OpWriteUnlock :: rest =>
      match w with
      | S w' => matching r w' rest
      | O => false
      end
  end.

Definition matched (ops : list op) : bool := matching 0 0 ops.

(** Open brackets of one kind. *)
Definition is_kind (k k' : kind) : bool :=
  match k, k' with
  | KRead, KRead | KWrite, KWrite => true
  | _, _ => false
  end.

Fixpoint open_of (k : kind) (open : list kind) : nat :=
  match open with
  | [] => O
  | k' :: rest => if is_kind k k' then S (open_of k rest) else open_of k rest
  end.

(** The counters after a sequence of operations. *)
Definition locals_after(ops : list op) (st : thread_locals) : thread_locals :=
  fold_left (fun st o => state_after (method o) st) ops st.

(** The depths a stack of open brackets (innermost first) stands for: a read
    bracket opened inside a write bracket is not counted, as in [ReadLock]. *)
Fixpoint depths (open : list kind) : Z * Z :=
  match open with
  | [] => (0, 0)
  | KRead :: rest =>
      let '(r, w) := depths rest in
      if w =? 0 then (r + 1, w) else (r, w)
  | KWrite :: rest =>
      let '(r, w) := depths rest in (r, w + 1)
  end.

Definition hold_of (d : Z * Z) : hold :=
  let '(r, w) := d in
  if 0 <? w then Hold 0 1 else if 0 <? r then Hold 1 0 else no_hold.

Definition models (open : list kind) (th : thread) : Prop :=
  locals th = TLS (fst (depths open)) (snd (depths open)) /\
  held th = hold_of (depths open).

(** The invariant of the data model: shared hold iff reading outside any
    write section, exclusive hold iff inside a write section. *)
Definition invariant (th : thread) : Prop :=
  (held_shared (held th) = true <->
     0 < LocalThreadReadLockCounter (locals th) /\
     LocalThreadWriteLockCounter (locals th) = 0) /\
  (held_exclusive (held th) = true <->
     0 < LocalThreadWriteLockCounter (locals th)).

(** *** The fail-fast policy, in the specification's words

    Second definition, following the specification and not the source: an
    unlock with no matching lock is a violation; every other call behaves
    like the source's. *)
Inductive outcome : Set :=
| Completed (st : thread_locals) (calls : list base_call)
| Violation.

Definition observe (m : M unit) (st : thread_locals) : outcome :=
  Completed (state_after m st) (calls_of m st).

Definition ReadUnlock_fail_fast (st : thread_locals) : outcome :=
  if (LocalThreadWriteLockCounter st =? 0) &&
     (LocalThreadReadLockCounter st =? 0)
  then Violation
  else observe ReadUnlock st.

Definition WriteUnlock_fail_fast (st : thread_locals) : outcome :=
  if LocalThreadWriteLockCounter st =? 0
  then Violation
  else observe WriteUnlock st.

End Recursive.

(** ** [int] of [std::atomic_int]: 32-bit two's complement *)

Module IntT.

Definition INT_MIN : Z := - 2 ^ 31.
Definition INT_MAX : Z := 2 ^ 31 - 1.

(** Atomic read-modify-write on a signed integer wraps silently. *)
Definition wrap_int (z : Z) : Z := (z + 2 ^ 31) mod 2 ^ 32 - 2 ^ 31.

Definition is_int (z : Z) : Prop := INT_MIN <= z <= INT_MAX.

End IntT.

(** ** The lock [ReadWriteMutex] as an interleaving transition system *)

Module Base.

(** Threads are numbered from 0. *)
Abbreviation tid := nat (only parsing).

(** Program points of a thread.  [RLn], [RUn], [WLn], [WUn] stand for "about
    to execute line n of src/ReadWriteMutex.cpp" inside [ReadLock],
    [ReadUnlock], [WriteLock], [WriteUnlock].  Line 53 holds two actions, the
    load of the loop test and the call [Cv.notify_all()]; line 74 holds
    three: the load of the test, the call of [Cv.wait(lk)] and the thread
    being blocked in it.  Lines 67-68 of [WriteLock] create and lock a mutex
    that no other thread can reach; they are part of the call.

    Between calls a thread is [Idle] (holds nothing), [Reading] (its
    [ReadLock] returned, it has not called [ReadUnlock] yet) or [Writing]
    (likewise for [WriteLock]). *)
Inductive pc : Set :=
| Idle
| RL39 | RL40 | RL41 | RL42 | RL43
| Reading
| RU49 | RU50 | RU52 | RU53 | RU53_notify | RU55
| WL70 | WL72 | WL74 | WL74_wait | WL74_blocked | WL76
| Writing
| WU82.

(** Lines 19-22.  A [std::mutex] is free or owned by a thread; the threads
    blocked on [Cv] are those standing at [WL74_blocked]. *)
Record state : Set := State {
  WriteMutex : option tid;
  ReadMutex : option tid;
  ReadCounter : Z;
  IsCondVarWaiting : bool;
  threads : list pc
}.

(** Lines 25-29, with [n] threads about to use the lock. *)
Definition init (n : nat) : state := State None None 0 false (repeat Idle n).

Definition set_WriteMutex (m : option tid) (s : state) : state :=
  State m (ReadMutex s) (ReadCounter s) (IsCondVarWaiting s) (threads s).
Definition set_ReadMutex (m : option tid) (s : state) : state :=
  State (WriteMutex s) m (ReadCounter s) (IsCondVarWaiting s) (threads s).
Definition set_ReadCounter (c : Z) (s : state) : state :=
  State (WriteMutex s) (ReadMutex s) c (IsCondVarWaiting s) (threads s).
Definition set_IsCondVarWaiting (b : bool) (s : state) : state :=
  State (WriteMutex s) (ReadMutex s) (ReadCounter s) b (threads s).
Definition set_pc (t : tid) (p : pc) (s : state) : state :=
  State (WriteMutex s) (ReadMutex s) (ReadCounter s) (IsCondVarWaiting s)
        (<[t := p]> (threads s)).

(** [Cv.notify_all()]: every thread blocked in [Cv.wait] leaves it (its own
    mutex [lk] is uncontended) and stands before line 76. *)
Definition wake (p : pc) : pc :=
  match p with
  | WL74_blocked => WL76
  | _ => p
  end.

Definition notify_all (s : state) : state :=
  State (WriteMutex s) (ReadMutex s) (ReadCounter s) (IsCondVarWaiting s)
        (wake <$> threads s).

(** Thread [t], standing at [p], executes its line.  [None]: the thread
    cannot move (it is blocked on a mutex or in [Cv.wait], or it is between
    calls). *)
Definition step_at (t : tid) (p : pc) (s : state) : option state :=
  match p with
  (* ReadLock *)
  | RL39 => (* WriteMutex.lock(); *)
      match WriteMutex s with
      | None => Some (set_pc t RL40 (set_WriteMutex (Some t) s))
      | Some _ => None
      end
  | RL40 => (* ReadMutex.lock(); *)
      match ReadMutex s with
      | None => Some (set_pc t RL41 (set_ReadMutex (Some t) s))
      | Some _ => None
      end
  | RL41 => (* ReadCounter.fetch_add(1); *)
      Some (set_pc t RL42 (set_ReadCounter (IntT.wrap_int (ReadCounter s + 1)) s))
  | RL42 => (* ReadMutex.unlock(); *)
      Some (set_pc t RL43 (set_ReadMutex None s))
  | RL43 => (* WriteMutex.unlock(); and return *)
      Some (set_pc t Reading (set_WriteMutex None s))
  (* ReadUnlock *)
  | RU49 => (* ReadMutex.lock(); *)
      match ReadMutex s with
      | None => Some (set_pc t RU50 (set_ReadMutex (Some t) s))
      | Some _ => None
      end
  | RU50 => (* ReadCounter.fetch_sub(1); *)
      Some (set_pc t RU52 (set_ReadCounter (IntT.wrap_int (ReadCounter s - 1)) s))
  | RU52 => (* if (ReadCounter.load() == 0) *)
      Some (set_pc t (if ReadCounter s =? 0 then RU53 else RU55) s)
  | RU53 => (* while (IsCondVarWaiting.load()) *)
      Some (set_pc t (if IsCondVarWaiting s then RU53_notify else RU55) s)
  | RU53_notify => (* Cv.notify_all(); *)
      Some (set_pc t RU53 (notify_all s))
  | RU55 => (* ReadMutex.unlock(); and return *)
      Some (set_pc t Idle (set_ReadMutex None s))
  (* WriteLock *)
  | WL70 => (* WriteMutex.lock(); *)
      match WriteMutex s with
      | None => Some (set_pc t WL72 (set_WriteMutex (Some t) s))
      | Some _ => None
      end
  | WL72 => (* IsCondVarWaiting.store(true); *)
      Some (set_pc t WL74 (set_IsCondVarWaiting true s))
  | WL74 => (* if (ReadCounter.load() > 0) *)
      Some (set_pc t (if 0 <? ReadCounter s then WL74_wait else WL76) s)
  | WL74_wait => (* Cv.wait(lk); the thread blocks *)
      Some (set_pc t WL74_blocked s)
  | WL74_blocked => None
  | WL76 => (* IsCondVarWaiting.store(false); and return *)
      Some (set_pc t Writing (set_IsCondVarWaiting false s))
  (* WriteUnlock *)
  | WU82 => (* WriteMutex.unlock(); and return *)
      Some (set_pc t Idle (set_WriteMutex None s))
  | Idle | Reading | Writing => None
  end.

Inductive lock_method : Set := MReadLock | MReadUnlock | MWriteLock | MWriteUnlock.

(** The protocol of the clients, which is no part of the four methods (they
    test nothing about their caller): a thread that holds nothing calls
    [ReadLock] or [WriteLock], a thread whose [ReadLock] returned calls
    [ReadUnlock], a thread whose [WriteLock] returned calls [WriteUnlock].
    [exec], [run] and [reachable] below are the executions of clients that
    keep this protocol; [Unguarded] has the calls as the methods admit them. *)
Definition call_at (m : lock_method) (p : pc) : option pc :=
  match m, p with
  | MReadLock, Idle => Some RL39
  | MWriteLock, Idle => Some WL70
  | MReadUnlock, Reading => Some RU49
  | MWriteUnlock, Writing => Some WU82
  | _, _ => None
  end.

(** What can happen next: a thread calls a method, a thread executes its
    line, or [Cv.wait] returns in a blocked thread without any notification
    (a spurious wake-up, which [std::condition_variable::wait] allows). *)
Inductive event : Set :=
| Call (t : tid) (m : lock_method)
| Step (t : tid)
| Spurious (t : tid).

Definition exec (e : event) (s : state) : option state :=
  match e with
  | Call t m =>
      match threads s !! t with
      | Some p =>
          match call_at m p with
          | Some q => Some (set_pc t q s)
          | None => None
          end
      | None => None
      end
  | Step t =>
      match threads s !! t with
      | Some p => step_at t p s
      | None => None
      end
  | Spurious t =>
      match threads s !! t with
      | Some WL74_blocked => Some (set_pc t WL76 s)
      | _ => None
      end
  end.

Fixpoint run (evs : list event) (s : state) : option state :=
  match evs with
  | [] => Some s
  | e :: rest =>
      match exec e s with
      | Some s' => run rest s'
      | None => None
      end
  end.

(** States reachable with [n] threads through events accepted by [ok]. *)
Inductive reachable_by (ok : event -> bool) (n : nat) : state -> Prop :=
| reach_init : reachable_by ok n (init n)
| reach_exec (s s' : state) (e : event) :
    reachable_by ok n s -> ok e = true -> exec e s = Some s' ->
    reachable_by ok n s'.

Definition any_event (e : event) : bool := true.

Definition notified_only (e : event) : bool :=
  match e with
  | Spurious _ => false
  | _ => true
  end.

Definition reachable : nat -> state -> Prop := reachable_by any_event.

(** The line a thread stands at; a thread that does not exist is [Idle]. *)
Definition pc_in (l : list pc) (t : tid) : pc :=
  match l !! t with
  | Some p => p
  | None => Idle
  end.

Definition pc_at (s : state) (t : tid) : pc := pc_in (threads s) t.

Definition holds_shared (s : state) (t : tid) : Prop := pc_at s t = Reading.
Definition holds_exclusive (s : state) (t : tid) : Prop := pc_at s t = Writing.

(** Mutual exclusion, as the data model states it. *)
Definition mutual_exclusion (s : state) : Prop :=
  forall t u : tid,
    holds_exclusive s t ->
    (holds_exclusive s u -> u = t) /\ ~ holds_shared s u.

(** Program points, by what the thread owns or has done there. *)

(** The thread owns [WriteMutex]. *)
Definition owns_WriteMutex (p : pc) : bool :=
  match p with
  | RL40 | RL41 | RL42 | RL43
  | WL72 | WL74 | WL74_wait | WL74_blocked | WL76 | Writing | WU82 => true
  | _ => false
  end.

(** The thread owns [ReadMutex]. *)
Definition owns_ReadMutex (p : pc) : bool :=
  match p with
  | RL41 | RL42 | RU50 | RU52 | RU53 | RU53_notify | RU55 => true
  | _ => false
  end.

(** Between [IsCondVarWaiting.store(true)] and [.store(false)]. *)
Definition flag_raised (p : pc) : bool :=
  match p with
  | WL74 | WL74_wait | WL74_blocked | WL76 => true
  | _ => false
  end.

(** The writer saw [ReadCounter > 0]: it is calling [Cv.wait] or blocked. *)
Definition waiting (p : pc) : bool :=
  match p with
  | WL74_wait | WL74_blocked => true
  | _ => false
  end.

(** Inside [ReadUnlock], after the decrement, up to the notify loop. *)
Definition notifying (p : pc) : bool :=
  match p with
  | RU52 | RU53 | RU53_notify => true
  | _ => false
  end.

(** Inside the notify loop of line 53. *)
Definition in_notify_loop (p : pc) : bool :=
  match p with
  | RU53 | RU53_notify => true
  | _ => false
  end.

(** The writer owns the gate: from after line 70 until line 82 has run. *)
Definition writer_section (p : pc) : bool :=
  match p with
  | WL72 | WL74 | WL74_wait | WL74_blocked | WL76 | Writing | WU82 => true
  | _ => false
  end.

(** Inside [ReadLock], past the gate of line 39. *)
Definition past_gate (p : pc) : bool :=
  match p with
  | RL40 | RL41 | RL42 | RL43 => true
  | _ => false
  end.

(** The writer is past the test and the wait of line 74. *)
Definition past_wait (p : pc) : bool :=
  match p with
  | WL76 | Writing | WU82 => true
  | _ => false
  end.

(** The thread is counted in [ReadCounter]: from after the [fetch_add] of
    line 41 until the [fetch_sub] of line 50 has run. *)
Definition counted (p : pc) : bool :=
  match p with
  | RL42 | RL43 | Reading | RU49 | RU50 => true
  | _ => false
  end.

Fixpoint count_readers (l : list pc) : Z :=
  match l with
  | [] => 0
  | p :: rest => (if counted p then 1 else 0) + count_readers rest
  end.

(** A reader takes the lock while a writer waits for it, then [Cv.wait]
    returns spuriously in the writer. *)
Definition spurious_schedule : list event :=
  [Call 0%nat MReadLock; Step 0%nat; Step 0%nat; Step 0%nat; Step 0%nat;
   Step 0%nat;
   Call 1%nat MWriteLock; Step 1%nat; Step 1%nat; Step 1%nat; Step 1%nat;
   Spurious 1%nat; Step 1%nat].

(** *** The invariant of the lock

    It holds in every reachable state, spurious wake-ups included. *)
Record inv (s : state) : Prop := Inv {
  inv_W : forall t,
    owns_WriteMutex (pc_at s t) = true <-> WriteMutex s = Some t;
  inv_R : forall t,
    owns_ReadMutex (pc_at s t) = true <-> ReadMutex s = Some t;
  inv_flag :
    IsCondVarWaiting s =
    match WriteMutex s with
    | Some w => flag_raised (pc_at s w)
    | None => false
    end;
  inv_range : IntT.is_int (ReadCounter s);
  inv_wait : forall w,
    waiting (pc_at s w) = true ->
    0 < ReadCounter s \/
    (ReadCounter s = 0 /\
     match ReadMutex s with
     | Some r => notifying (pc_at s r)
     | None => false
     end = true);
  inv_loop : forall r,
    in_notify_loop (pc_at s r) = true -> ReadCounter s = 0
}.

(** [ReadCounter] counts the readers exactly, as long as there are no more
    threads than an [int] can count. *)
Definition counter_exact (s : state) : Prop :=
  ReadCounter s = count_readers (threads s) /\
  Z.of_nat (length (threads s)) <= IntT.INT_MAX.

(** A writer that is past line 74 has seen the readers gone. *)
Definition writer_sees_zero (s : state) : Prop :=
  forall w, past_wait (pc_at s w) = true -> ReadCounter s = 0.

(** A reader holds the lock, a writer is blocked in [Cv.wait], and the reader
    has run [ReadUnlock] up to the decrement of line 50. *)
Definition draining_schedule : list event :=
  [Call 0%nat MReadLock; Step 0%nat; Step 0%nat; Step 0%nat; Step 0%nat;
   Step 0%nat;
   Call 1%nat MWriteLock; Step 1%nat; Step 1%nat; Step 1%nat; Step 1%nat;
   Call 0%nat MReadUnlock; Step 0%nat; Step 0%nat].

Definition draining_state : state :=
  State (Some 1%nat) (Some 0%nat) 0 true [RU52; WL74_blocked].

End Base.

(** ** The methods as they are, without the clients' protocol

    None of the four methods checks what its caller holds: a thread that is
    between two calls can call any of them.  Here a call is admitted from
    every point between calls, and the protocol of [Base.call_at] is a
    property that an execution has or does not have.  Outside the protocol
    the points [Idle], [Reading] and [Writing] only tell which method the
    thread returned from last. *)

Module Unguarded.
Import Base.

(** The first line of each method. *)
Definition entry (m : lock_method) : pc :=
  match m with
  | MReadLock => RL39
  | MReadUnlock => RU49
  | MWriteLock => WL70
  | MWriteUnlock => WU82
  end.

Definition between_calls (p : pc) : bool :=
  match p with
  | Idle | Reading | Writing => true
  | _ => false
  end.

Definition exec_any (e : event) (s : state) : option state :=
  match e with
  | Call t m =>
      match threads s !! t with
      | Some p => if between_calls p then Some (set_pc t (entry m) s) else None
      | None => None
      end
  | _ => exec e s
  end.

Fixpoint run_any (evs : list event) (s : state) : option state :=
  match evs with
  | [] => Some s
  | e :: rest =>
      match exec_any e s with
      | Some s' => run_any rest s'
      | None => None
      end
  end.

(** The event is one the protocol allows in state [s]: a call is made from
    the point that [call_at] prescribes for it. *)
Definition in_protocol (e : event) (s : state) : bool :=
  match e with
  | Call t m =>
      match threads s !! t with
      | Some p =>
          match call_at m p with
          | Some _ => true
          | None => false
          end
      | None => false
      end
  | _ => true
  end.

(** Every call of the execution is made as the protocol allows. *)
Fixpoint keeps_protocol (evs : list event) (s : state) : bool :=
  match evs with
  | [] => true
  | e :: rest =>
      in_protocol e s &&
      match exec_any e s with
      | Some s' => keeps_protocol rest s'
      | None => true
      end
  end.

(** A whole [ReadUnlock()] by thread [t] that does not have to notify: the
    call and lines 49, 50, 52 and 55. *)
Definition ReadUnlock_events (t : tid) : list event :=
  Call t MReadUnlock :: repeat (Step t) 4.

(** Thread 1 takes the lock for reading; thread 0, which holds nothing,
    calls [ReadUnlock] (lines 49, 50, 52, 53 and 55) and then [WriteLock]
    (lines 70, 72, 74 and 76). *)
Definition stray_unlock_schedule : list event :=
  (Call 1%nat MReadLock :: repeat (Step 1%nat) 5) ++
  (Call 0%nat MReadUnlock :: repeat (Step 0%nat) 5) ++
  (Call 0%nat MWriteLock :: repeat (Step 0%nat) 4).

End Unguarded.

(** ** The wrapper driving the lock, for a thread that runs alone *)

Module Layers.
Import Recursive Base.

Definition lock_method_of (c : base_call) : lock_method :=
  match c with
  | Rwmx_ReadLock => MReadLock
  | Rwmx_ReadUnlock => MReadUnlock
  | Rwmx_WriteLock => MWriteLock
  | Rwmx_WriteUnlock => MWriteUnlock
  end.

(** Thread [t] executes its lines until its call has returned.  [None]: the
    thread is blocked, or the fuel is used up. *)
Fixpoint complete (fuel : nat) (t : tid) (s : state) : option state :=
  match pc_at s t with
  | Idle | Reading | Writing => Some s
  | _ =>
      match fuel with
      | O => None
      | S fuel' =>
          match exec (Step t) s with
          | Some s' => complete fuel' t s'
          | None => None
          end
      end
  end.

(** One call on [Rwmx], from the call to the return; no method has more than
    six lines on a path. *)
Definition perform (t : tid) (s : state) (c : base_call) : option state :=
  match exec (Call t (lock_method_of c)) s with
  | Some s' => complete 8 t s'
  | None => None
  end.

Fixpoint perform_all (t : tid) (cs : list base_call) (s : state)
  : option state :=
  match cs with
  | [] => Some s
  | c :: rest =>
      match perform t s c with
      | Some s' => perform_all t rest s'
      | None => None
      end
  end.

(** The lock used by thread 0 only, by what this thread holds. *)
Definition lock_of (h : hold) : state :=
  if held_exclusive h then State (Some 0%nat) None 0 false [Writing]
  else if held_shared h then State None None 1 false [Reading]
  else init 1.

End Layers.

(** ** Uses of the lock and of the wrapper *)

Module Usage.
Import Recursive Base.




(** A whole [ReadLock()] by thread [t]: the call and its five lines. *)
Definition ReadLock_events (t : tid) : list event :=
  Call t MReadLock :: repeat (Step t) 5.

(** Threads 0 .. k-1 take the lock for reading, one after the other. *)
Fixpoint all_ReadLock (k : nat) : list event :=
  match k with
  | O => []
  | S k' => all_ReadLock k' ++ ReadLock_events k'
  end.


(** Lines 243-261 of [main]: the calls made on the local [rrwx] before the
    last two threads are started. *)
Definition main_ops : list op :=
  [OpReadLock; OpReadLock; OpReadUnlock; OpReadUnlock;
   OpWriteLock; OpWriteLock; OpWriteUnlock; OpWriteUnlock;
   OpWriteLock; OpReadLock; OpReadUnlock; OpWriteUnlock;
   OpReadLock; OpWriteLock; OpWriteUnlock; OpReadUnlock].

(** Lines 187-194 and 205-212: the calls on [Rrwmx] made by [n] rounds of the
    loops of [ReadingFunc] and of [WritingFunc]. *)
Definition ReadingFunc_ops (n : nat) : list op :=
  concat (repeat [OpReadLock; OpReadUnlock] n).
Definition WritingFunc_ops (n : nat) : list op :=
  concat (repeat [OpReadLock; OpWriteLock; OpWriteUnlock; OpReadUnlock] n).

(** The state after [draining_schedule] and one more line of thread 0: the
    reader is in the notify loop of line 53, the writer is blocked. *)
Definition notifying_state : state :=
  State (Some 1%nat) (Some 0%nat) 0 true [RU53; WL74_blocked].

(** One reader holds the lock, a second thread is idle. *)
Definition one_reader_state : state :=
  State None None 1 false [Reading; Idle].

(** A writer holds the lock, a second thread is idle. *)
Definition one_writer_state : state :=
  State (Some 0%nat) None 0 false [Writing; Idle].

(** Thread 0 is at the last line of [ReadLock], a second thread is idle. *)
Definition leaving_ReadLock_state : state :=
  State (Some 0%nat) None 1 false [RL43; Idle].

End Usage.

(** ** Facts on [std::size_t] arithmetic *)

Module SizeTFacts.
Import SizeT.

Lemma wrap_in_range z : in_range (wrap z).
Proof. unfold in_range, wrap, modulus. apply Z.mod_pos_bound. lia. Qed.

Lemma incr_small x : 0 <= x < max -> incr x = x + 1.
Proof.
  unfold incr, wrap, max, modulus. intros H.
  apply Z.mod_small. lia.
Qed.

Lemma decr_pos x : 0 < x < modulus -> decr x = x - 1.
Proof.
  unfold decr, wrap, modulus. intros H.
  apply Z.mod_small. lia.
Qed.

Lemma decr_zero : decr 0 = max.
Proof. reflexivity. Qed.

Lemma incr_max : incr max = 0.
Proof. reflexivity. Qed.

End SizeTFacts.

(** ** Properties of the reentrant wrapper *)

Module RecursiveFacts.
Import Recursive.

(** Each method, with the monad unfolded. *)
Lemma ReadLock_unfold (st : thread_locals) :
  ReadLock st =
  let rd := LocalThreadReadLockCounter st in
  let wd := LocalThreadWriteLockCounter st in
  if wd =? 0
  then (tt, TLS (SizeT.incr rd) wd, if rd =? 0 then [Rwmx_ReadLock] else [])
  else (tt, st, []).
Proof.
  destruct st as [rd wd].
  cbv [ReadLock bind when write_counter read_counter incr_read_counter Rwmx ret
       LocalThreadReadLockCounter LocalThreadWriteLockCounter].
  destruct (wd =? 0); [| reflexivity].
  destruct (rd =? 0); reflexivity.
Qed.

Lemma ReadUnlock_unfold (st : thread_locals) :
  ReadUnlock st =
  let rd := LocalThreadReadLockCounter st in
  let wd := LocalThreadWriteLockCounter st in
  if wd =? 0
  then (tt, TLS (SizeT.decr rd) wd, if rd =? 1 then [Rwmx_ReadUnlock] else [])
  else (tt, st, []).
Proof.
  destruct st as [rd wd].
  cbv [ReadUnlock bind when write_counter read_counter decr_read_counter Rwmx ret
       LocalThreadReadLockCounter LocalThreadWriteLockCounter].
  destruct (wd =? 0); [| reflexivity].
  destruct (rd =? 1); reflexivity.
Qed.

Lemma WriteLock_unfold (st : thread_locals) :
  WriteLock st =
  let rd := LocalThreadReadLockCounter st in
  let wd := LocalThreadWriteLockCounter st in
  (tt, TLS rd (SizeT.incr wd),
   if wd =? 0
   then (if 0 <? rd then [Rwmx_ReadUnlock; Rwmx_WriteLock]
         else [Rwmx_WriteLock])
   else []).
Proof.
  destruct st as [rd wd].
  cbv [WriteLock bind when write_counter read_counter incr_write_counter Rwmx ret
       LocalThreadReadLockCounter LocalThreadWriteLockCounter].
  destruct (wd =? 0); [| reflexivity].
  destruct (0 <? rd); reflexivity.
Qed.

Lemma WriteUnlock_unfold (st : thread_locals) :
  WriteUnlock st =
  let rd := LocalThreadReadLockCounter st in
  let wd := LocalThreadWriteLockCounter st in
  (tt, TLS rd (SizeT.decr wd),
   if wd =? 1
   then (if 0 <? rd then [Rwmx_WriteUnlock; Rwmx_ReadLock]
         else [Rwmx_WriteUnlock])
   else []).
Proof.
  destruct st as [rd wd].
  cbv [WriteUnlock bind when write_counter read_counter decr_write_counter Rwmx ret
       LocalThreadReadLockCounter LocalThreadWriteLockCounter].
  destruct (wd =? 1); [| reflexivity].
  destruct (0 <? rd); reflexivity.
Qed.

Ltac unfold_method :=
  unfold observe, state_after, calls_of;
  rewrite ?ReadLock_unfold, ?ReadUnlock_unfold,
          ?WriteLock_unfold, ?WriteUnlock_unfold;
  cbn [LocalThreadReadLockCounter LocalThreadWriteLockCounter fst snd].

Ltac case_tests :=
  repeat match goal with
  | |- context [?a =? ?b] => destruct (Z.eqb_spec a b)
  | |- context [?a <? ?b] => destruct (Z.ltb_spec a b)
  end;
  cbn [fst snd].

(** C3.  [WriteLock] called with write depth 0 and read depth > 0 calls
    [Rwmx.ReadUnlock()] and then [Rwmx.WriteLock()], in this order: a thread
    that held the lock in shared mode holds neither mode between the two
    calls and holds it exclusively afterwards.  A nested call (write depth
    > 0) makes no call on [Rwmx].  Every call leaves the read depth alone and
    increments the write depth by one ([++] on a [std::size_t]). *)
Theorem WriteLock_upgrade (st : thread_locals) :
  let rd := LocalThreadReadLockCounter st in
  let wd := LocalThreadWriteLockCounter st in
  (wd = 0 -> 0 < rd ->
     calls_of WriteLock st = [Rwmx_ReadUnlock; Rwmx_WriteLock] /\
     let h1 := apply_call (Hold 1 0) Rwmx_ReadUnlock in
     let h2 := apply_call h1 Rwmx_WriteLock in
     (held_shared h1 = false /\ held_exclusive h1 = false) /\
     (held_shared h2 = false /\ held_exclusive h2 = true) /\
     apply_calls (Hold 1 0) (calls_of WriteLock st) = h2) /\
  (0 < wd -> calls_of WriteLock st = []) /\
  LocalThreadWriteLockCounter (state_after WriteLock st) = SizeT.incr wd /\
  (0 <= wd < SizeT.max ->
     LocalThreadWriteLockCounter (state_after WriteLock st) = wd + 1) /\
  LocalThreadReadLockCounter (state_after WriteLock st) = rd.
Proof.
  intros rd wd. subst rd wd. unfold_method.
  repeat split.
  - case_tests; try lia. reflexivity.
  - case_tests; try lia. reflexivity.
  - intros H. case_tests; try lia. reflexivity.
  - intros H. apply SizeTFacts.incr_small. exact H.
Qed.

Lemma WriteLock_upgrade_witness :
  calls_of WriteLock (TLS 2 0) = [Rwmx_ReadUnlock; Rwmx_WriteLock] /\
  calls_of WriteLock (TLS 2 3) = [] /\
  LocalThreadWriteLockCounter (state_after WriteLock (TLS 2 3)) = 4.
Proof.
  split; [| split].
  - apply (WriteLock_upgrade (TLS 2 0)); [reflexivity | simpl; lia].
  - apply (WriteLock_upgrade (TLS 2 3)). simpl; lia.
  - apply (WriteLock_upgrade (TLS 2 3)). simpl.
    unfold SizeT.max, SizeT.modulus. lia.
Defined.

(** C4.  A [WriteUnlock] through which the write depth reaches 0 calls
    [Rwmx.WriteUnlock()] and then, when the read depth is > 0,
    [Rwmx.ReadLock()]: a thread that held the lock exclusively holds it in
    shared mode after the call (and not at all when the read depth is 0).
    Every call decrements the write depth by one ([--] on a [std::size_t])
    and leaves the read depth alone; a call that leaves the write depth > 0
    makes no call on [Rwmx]. *)
Theorem WriteUnlock_downgrade (st : thread_locals) :
  let rd := LocalThreadReadLockCounter st in
  let wd := LocalThreadWriteLockCounter st in
  let wd' := LocalThreadWriteLockCounter (state_after WriteUnlock st) in
  (SizeT.in_range wd -> wd' = 0 ->
     wd = 1 /\
     (0 < rd ->
        calls_of WriteUnlock st = [Rwmx_WriteUnlock; Rwmx_ReadLock] /\
        let h := apply_calls (Hold 0 1) (calls_of WriteUnlock st) in
        held_shared h = true /\ held_exclusive h = false) /\
     (rd <= 0 ->
        calls_of WriteUnlock st = [Rwmx_WriteUnlock] /\
        apply_calls (Hold 0 1) (calls_of WriteUnlock st) = no_hold)) /\
  (0 < wd' -> calls_of WriteUnlock st = []) /\
  wd' = SizeT.decr wd /\
  (0 < wd < SizeT.modulus -> wd' = wd - 1) /\
  LocalThreadReadLockCounter (state_after WriteUnlock st) = rd.
Proof.
  intros rd wd wd'. subst rd wd wd'. unfold_method.
  destruct st as [rd wd]; cbn [LocalThreadReadLockCounter
    LocalThreadWriteLockCounter].
  assert (Hone : SizeT.decr 1 = 0) by reflexivity.
  split; [| split; [| split; [| split]]].
  - intros Hr H0.
    assert (wd = 1) as ->.
    { unfold SizeT.in_range in Hr.
      destruct (Z.eq_dec wd 0) as [-> | Hn]; [discriminate H0 |].
      rewrite SizeTFacts.decr_pos in H0 by lia. lia. }
    split; [reflexivity |]. split; intros Hrd.
    + case_tests; try lia. repeat split.
    + case_tests; try lia. repeat split.
  - intros Hpos. case_tests; try reflexivity; subst; rewrite Hone in Hpos; lia.
  - reflexivity.
  - intros H. apply SizeTFacts.decr_pos. exact H.
  - reflexivity.
Qed.

Lemma WriteUnlock_downgrade_witness :
  calls_of WriteUnlock (TLS 2 1) = [Rwmx_WriteUnlock; Rwmx_ReadLock] /\
  calls_of WriteUnlock (TLS 0 1) = [Rwmx_WriteUnlock] /\
  calls_of WriteUnlock (TLS 2 3) = [] /\
  LocalThreadWriteLockCounter (state_after WriteUnlock (TLS 2 3)) = 2.
Proof.
  assert (R1 : SizeT.in_range 1) by (unfold SizeT.in_range, SizeT.modulus; lia).
  split; [| split; [| split]].
  - apply (WriteUnlock_downgrade (TLS 2 1)); [exact R1 | reflexivity | simpl; lia].
  - apply (WriteUnlock_downgrade (TLS 0 1)); [exact R1 | reflexivity | simpl; lia].
  - apply (WriteUnlock_downgrade (TLS 2 3)). reflexivity.
  - apply (WriteUnlock_downgrade (TLS 2 3)).
Defined.

(** C8.  Inside a write section (write depth > 0) [ReadLock] and
    [ReadUnlock] do nothing: no call on [Rwmx], both counters unchanged, and
    so what the thread holds on [Rwmx] is unchanged. *)
Theorem read_ops_noop_in_write_section (th : thread) :
  0 < LocalThreadWriteLockCounter (locals th) ->
  (calls_of ReadLock (locals th) = [] /\
   state_after ReadLock (locals th) = locals th /\
   do_op th OpReadLock = th) /\
  (calls_of ReadUnlock (locals th) = [] /\
   state_after ReadUnlock (locals th) = locals th /\
   do_op th OpReadUnlock = th).
Proof.
  destruct th as [st h]. cbn [locals held]. intros Hwd.
  unfold do_op, method. cbn [locals held]. unfold_method.
  case_tests; try lia. repeat split.
Qed.

Lemma read_ops_noop_in_write_section_witness :
  do_op (Thread (TLS 3 2) (Hold 0 1)) OpReadLock = Thread (TLS 3 2) (Hold 0 1) /\
  do_op (Thread (TLS 3 2) (Hold 0 1)) OpReadUnlock = Thread (TLS 3 2) (Hold 0 1).
Proof.
  split.
  - apply (read_ops_noop_in_write_section (Thread (TLS 3 2) (Hold 0 1))).
    simpl. lia.
  - apply (read_ops_noop_in_write_section (Thread (TLS 3 2) (Hold 0 1))).
    simpl. lia.
Defined.

(** *** Well-nested sequences keep the invariant *)

Lemma depths_bounds (open : list kind) :
  0 <= fst (depths open) <= Z.of_nat (length open) /\
  0 <= snd (depths open) <= Z.of_nat (length open).
Proof.
  induction open as [| k rest IH]; [simpl; lia |].
  cbn [depths length]. destruct (depths rest) as [r w].
  cbn [fst snd] in IH. destruct k.
  - destruct (Z.eqb_spec w 0); cbn [fst snd]; lia.
  - cbn [fst snd]; lia.
Qed.

Lemma models_invariant (open : list kind) (th : thread) :
  models open th -> invariant th.
Proof.
  intros [Hl Hh]. pose proof (depths_bounds open) as Hb.
  destruct (depths open) as [r w]. cbn [fst snd] in *.
  unfold invariant. rewrite Hl, Hh. unfold hold_of, held_shared,
    held_exclusive, no_hold.
  cbn [LocalThreadReadLockCounter LocalThreadWriteLockCounter].
  destruct (Z.ltb_spec 0 w); [| destruct (Z.ltb_spec 0 r)];
    cbn [shared_holds exclusive_holds]; split; split;
    rewrite ?Z.ltb_lt; try lia; intros; try discriminate; try reflexivity.
Qed.

Lemma nesting_cons (open : list kind) (o : op) (ops : list op) :
  nesting open (o :: ops) =
  match bracket open o with
  | Some open' => nesting open' ops
  | None => None
  end.
Proof.
  unfold bracket. destruct o; cbn [nesting]; try reflexivity;
    destruct open as [| [] ?]; reflexivity.
Qed.

Lemma bracket_length (open open' : list kind) (o : op) :
  bracket open o = Some open' -> (length open' <= S (length open))%nat.
Proof.
  unfold bracket. destruct o; cbn [nesting].
  - intros [= <-]. simpl. lia.
  - destruct open as [| [] ?]; try discriminate. intros [= <-]. simpl. lia.
  - intros [= <-]. simpl. lia.
  - destruct open as [| [] ?]; try discriminate. intros [= <-]. simpl. lia.
Qed.

Lemma do_op_models (open open' : list kind) (th : thread) (o : op) :
  models open th ->
  bracket open o = Some open' ->
  Z.of_nat (length open) < SizeT.modulus ->
  Z.of_nat (length open') < SizeT.modulus ->
  models open' (do_op th o).
Proof.
  intros [Hl Hh] Hb Hlen0 Hlen. destruct th as [st h]. cbn [locals held] in *.
  subst st h. unfold bracket in Hb. unfold models, do_op.
  cbn [locals held].
  destruct o; cbn [nesting method] in *.
  - (* ReadLock *)
    injection Hb as <-. cbn [depths length] in *.
    pose proof (depths_bounds open) as Hd.
    destruct (depths open) as [r w]. cbn [fst snd] in *.
    unfold_method. unfold hold_of, apply_calls, no_hold.
    destruct (Z.eqb_spec w 0) as [-> | Hw]; cbn [fst snd].
    + rewrite SizeTFacts.incr_small
        by (unfold SizeT.max; lia).
      split; [reflexivity |].
      case_tests; try lia; reflexivity.
    + split; reflexivity.
  - (* ReadUnlock *)
    destruct open as [| [] rest]; try discriminate.
    injection Hb as <-. cbn [depths length] in *.
    pose proof (depths_bounds rest) as Hd.
    destruct (depths rest) as [r w]. cbn [fst snd] in *.
    unfold hold_of, apply_calls, no_hold.
    destruct (Z.eqb_spec w 0) as [-> | Hw]; cbn [fst snd]; unfold_method.
    + rewrite Z.eqb_refl.
      replace (SizeT.decr (r + 1)) with r
        by (rewrite SizeTFacts.decr_pos; lia).
      split; [reflexivity |].
      case_tests; try lia; reflexivity.
    + case_tests; try lia. split; reflexivity.
  - (* WriteLock *)
    injection Hb as <-. cbn [depths length] in *.
    pose proof (depths_bounds open) as Hd.
    destruct (depths open) as [r w]. cbn [fst snd] in *.
    unfold_method. unfold hold_of, apply_calls, no_hold.
    rewrite SizeTFacts.incr_small by (unfold SizeT.max; lia).
    split; [reflexivity |].
    case_tests; try lia; reflexivity.
  - (* WriteUnlock *)
    destruct open as [| [] rest]; try discriminate.
    injection Hb as <-. cbn [depths length] in *.
    pose proof (depths_bounds rest) as Hd.
    destruct (depths rest) as [r w]. cbn [fst snd] in *.
    unfold_method. unfold hold_of, apply_calls, no_hold.
    replace (SizeT.decr (w + 1)) with w
      by (rewrite SizeTFacts.decr_pos; lia).
    split; [reflexivity |].
    case_tests; try lia; reflexivity.
Qed.

Lemma run_models (ops : list op) :
  forall (open final : list kind) (th : thread),
    models open th ->
    nesting open ops = Some final ->
    Z.of_nat (length open + length ops) < SizeT.modulus ->
    models final (run_ops ops th).
Proof.
  induction ops as [| o ops IH]; intros open final th Hm Hn Hlen.
  - cbn in Hn. injection Hn as <-. exact Hm.
  - rewrite nesting_cons in Hn.
    destruct (bracket open o) as [open' |] eqn:Hb; [| discriminate].
    pose proof (bracket_length _ _ _ Hb) as Hle.
    cbn [length] in Hlen.
    unfold run_ops. cbn [fold_left]. apply (IH open'); [| exact Hn | lia].
    apply (do_op_models open); [exact Hm | exact Hb | lia | lia].
Qed.

Lemma nesting_prefix (a b : list op) :
  forall (open final : list kind),
    nesting open (a ++ b) = Some final ->
    exists mid, nesting open a = Some mid.
Proof.
  induction a as [| o a IH]; intros open final H.
  - exists open. reflexivity.
  - cbn [app] in H. rewrite nesting_cons in H |- *.
    destruct (bracket open o) as [open' |]; [| discriminate].
    apply (IH open' final H).
Qed.

Lemma run_locals (ops : list op) :
  forall th, locals (run_ops ops th) = locals_after ops (locals th).
Proof.
  induction ops as [| o ops IH]; intros th; [reflexivity |].
  unfold run_ops, locals_after in *. cbn [fold_left]. rewrite IH. reflexivity.
Qed.

Lemma run_held (ops : list op) :
  forall th, held (run_ops ops th) = apply_calls (held th) (trace ops (locals th)).
Proof.
  induction ops as [| o ops IH]; intros th; [reflexivity |].
  unfold run_ops, trace in *. cbn [fold_left calls_each concat].
  rewrite IH. unfold apply_calls. rewrite fold_left_app. reflexivity.
Qed.

(** The write depth a stack of open brackets stands for is the number of its
    write brackets; the read depth counts the read brackets opened outside
    every write bracket, so it is the number of all read brackets when no
    write bracket is open. *)
Lemma depths_open_writes (open : list kind) :
  snd (depths open) = Z.of_nat (open_of KWrite open).
Proof.
  induction open as [| k rest IH]; [reflexivity |].
  cbn [depths open_of]. destruct (depths rest) as [r w]. cbn [fst snd] in IH.
  destruct k; cbn [is_kind].
  - destruct (w =? 0); cbn [snd]; exact IH.
  - cbn [snd]. lia.
Qed.

Lemma depths_open_reads (open : list kind) :
  open_of KWrite open = 0%nat ->
  fst (depths open) = Z.of_nat (open_of KRead open).
Proof.
  induction open as [| k rest IH]; [reflexivity |].
  pose proof (depths_open_writes rest) as Hw.
  cbn [depths open_of]. destruct (depths rest) as [r w]. cbn [fst snd] in *.
  destruct k; cbn [is_kind].
  - intros H0. rewrite H0 in Hw. change (Z.of_nat 0) with 0 in Hw. subst w.
    cbn [Z.eqb fst]. rewrite (IH H0). lia.
  - discriminate.
Qed.

(** Every well-nested sequence is matched: well-nestedness is the word
    "balanced" with the order of the unlocks fixed. *)
Lemma nesting_matching (ops : list op) :
  forall open : list kind,
    nesting open ops = Some [] ->
    matching (open_of KRead open) (open_of KWrite open) ops = true.
Proof.
  induction ops as [| o ops IH]; intros open H.
  - cbn in H. injection H as ->. reflexivity.
  - destruct o; cbn [nesting matching] in *.
    + apply (IH _ H).
    + destruct open as [| [] rest]; try discriminate.
      apply (IH _ H).
    + apply (IH _ H).
    + destruct open as [| [] rest]; try discriminate.
      apply (IH _ H).
Qed.

Lemma balanced_matched (ops : list op) :
  balanced ops = true -> matched ops = true.
Proof.
  unfold balanced, matched. intros H.
  destruct (nesting [] ops) as [[| ? ?] |] eqn:Hn; try discriminate.
  apply (nesting_matching ops [] Hn).
Qed.

(** C2, as stated.  A sequence in which every unlock has its lock and every
    lock its unlock, shorter than 2^64, after which the invariant does not
    hold: the [ReadLock] issued inside the write section is not recorded
    (line 115), so the [ReadUnlock] that follows the [WriteUnlock] finds both
    depths at 0 and wraps the read depth to 2^64 - 1 while the thread holds
    nothing. *)
Lemma matched_sequence_loses_invariant :
  let ops := [OpWriteLock; OpReadLock; OpWriteUnlock; OpReadUnlock] in
  matched ops = true /\
  Z.of_nat (length ops) < SizeT.modulus /\
  run_ops ops fresh = Thread (TLS SizeT.max 0) no_hold /\
  ~ invariant (run_ops ops fresh).
Proof.
  split; [reflexivity |]. split; [reflexivity |]. split; [reflexivity |].
  intros [[_ Hshared] _]. cbn in Hshared.
  assert (H : false = true) by (apply Hshared; split; reflexivity).
  discriminate H.
Qed.

(** C2, amended.  Along every well-nested sequence of the four operations
    (each unlock closes the innermost lock still open, which is of its kind),
    shorter than 2^64 and run by one thread from its initial state, after
    each operation: the brackets of the operations done so far nest, the
    depths are those of the brackets still open (the write depth is the
    number of open write brackets, the read depth the number of open read
    brackets that were opened outside every write section), and the thread
    holds [Rwmx] in shared mode iff read depth > 0 and write depth = 0, and in
    exclusive mode iff write depth > 0.  The holds are counted from the calls
    the operations made on [Rwmx]. *)
Theorem balanced_keeps_invariant (ops : list op) (k : nat) :
  balanced ops = true ->
  Z.of_nat (length ops) < SizeT.modulus ->
  let th := run_ops (firstn k ops) fresh in
  exists open : list kind,
    nesting [] (firstn k ops) = Some open /\
    LocalThreadReadLockCounter (locals th) = fst (depths open) /\
    LocalThreadWriteLockCounter (locals th) = snd (depths open) /\
    snd (depths open) = Z.of_nat (open_of KWrite open) /\
    held th = apply_calls no_hold (trace (firstn k ops) clean) /\
    invariant th.
Proof.
  intros Hb Hlen th. unfold balanced in Hb.
  destruct (nesting [] ops) as [final |] eqn:Hn; [| discriminate].
  rewrite <- (firstn_skipn k ops) in Hn.
  destruct (nesting_prefix _ _ _ _ Hn) as [mid Hmid].
  assert (Hm : models mid th).
  { apply (run_models (firstn k ops) [] mid fresh).
    - split; reflexivity.
    - exact Hmid.
    - change (length (@nil kind)) with 0%nat.
      rewrite length_take. lia. }
  exists mid. split; [exact Hmid |].
  destruct Hm as [Hl Hh].
  split; [rewrite Hl; reflexivity |].
  split; [rewrite Hl; reflexivity |].
  split; [apply depths_open_writes |].
  split; [| apply (models_invariant mid); split; assumption].
  subst th. apply run_held.
Qed.

Lemma balanced_keeps_invariant_witness :
  let ops := [OpReadLock; OpWriteLock; OpReadLock; OpReadUnlock;
              OpWriteUnlock; OpReadUnlock] in
  let th := run_ops (firstn 3 ops) fresh in
  exists open : list kind,
    nesting [] (firstn 3 ops) = Some open /\
    LocalThreadReadLockCounter (locals th) = fst (depths open) /\
    LocalThreadWriteLockCounter (locals th) = snd (depths open) /\
    snd (depths open) = Z.of_nat (open_of KWrite open) /\
    held th = apply_calls no_hold (trace (firstn 3 ops) clean) /\
    invariant th.
Proof.
  apply (balanced_keeps_invariant
           [OpReadLock; OpWriteLock; OpReadLock; OpReadUnlock;
            OpWriteUnlock; OpReadUnlock] 3).
  - reflexivity.
  - unfold SizeT.modulus. simpl. lia.
Defined.

(** *** Nested acquisitions of one kind *)

Lemma calls_each_app (a b : list op) :
  forall st,
    calls_each (a ++ b) st = calls_each a st ++ calls_each b (locals_after a st).
Proof.
  induction a as [| o a IH]; intros st; [reflexivity |].
  cbn [app calls_each]. rewrite IH. reflexivity.
Qed.

Lemma locals_after_app (a b : list op) (st : thread_locals) :
  locals_after (a ++ b) st = locals_after b (locals_after a st).
Proof. unfold locals_after. apply fold_left_app. Qed.

Lemma thread_eq (a b : thread) :
  locals a = locals b -> held a = held b -> a = b.
Proof. destruct a, b. cbn. intros -> ->. reflexivity. Qed.

Lemma calls_each_cons (o : op) (ops : list op) (st : thread_locals) :
  calls_each (o :: ops) st =
  calls_of (method o) st :: calls_each ops (state_after (method o) st).
Proof. reflexivity. Qed.

Lemma locals_after_cons (o : op) (ops : list op) (st : thread_locals) :
  locals_after (o :: ops) st = locals_after ops (state_after (method o) st).
Proof. reflexivity. Qed.

(** One re-entrant call: no call on [Rwmx], one depth moves by one. *)
Lemma ReadLock_inner (r : Z) :
  1 <= r < SizeT.max ->
  calls_of ReadLock (TLS r 0) = [] /\
  state_after ReadLock (TLS r 0) = TLS (r + 1) 0.
Proof.
  intros H. unfold_method. case_tests; try lia.
  rewrite SizeTFacts.incr_small by lia. split; reflexivity.
Qed.

Lemma ReadUnlock_inner (r : Z) :
  1 <= r < SizeT.max ->
  calls_of ReadUnlock (TLS (r + 1) 0) = [] /\
  state_after ReadUnlock (TLS (r + 1) 0) = TLS r 0.
Proof.
  intros H. unfold_method. case_tests; try lia.
  rewrite SizeTFacts.decr_pos by (unfold SizeT.max in H; lia).
  split; [reflexivity | f_equal; lia].
Qed.

Lemma WriteLock_inner (r w : Z) :
  1 <= w < SizeT.max ->
  calls_of WriteLock (TLS r w) = [] /\
  state_after WriteLock (TLS r w) = TLS r (w + 1).
Proof.
  intros H. unfold_method. case_tests; try lia.
  rewrite SizeTFacts.incr_small by lia. split; reflexivity.
Qed.

Lemma WriteUnlock_inner (r w : Z) :
  1 <= w < SizeT.max ->
  calls_of WriteUnlock (TLS r (w + 1)) = [] /\
  state_after WriteUnlock (TLS r (w + 1)) = TLS r w.
Proof.
  intros H. unfold_method. case_tests; try lia.
  rewrite SizeTFacts.decr_pos by (unfold SizeT.max in H; lia).
  split; [reflexivity | f_equal; lia].
Qed.

(** Re-entrant locks and unlocks at read depth >= 1, outside write sections. *)
Lemma inner_read_locks (k : nat) :
  forall r, 1 <= r -> r + Z.of_nat k < SizeT.modulus ->
    calls_each (repeat OpReadLock k) (TLS r 0) = repeat [] k /\
    locals_after (repeat OpReadLock k) (TLS r 0) = TLS (r + Z.of_nat k) 0.
Proof.
  induction k as [| k IH]; intros r Hr Hk.
  - cbn. rewrite Z.add_0_r. split; reflexivity.
  - cbn [repeat]. rewrite calls_each_cons, locals_after_cons. cbn [method].
    destruct (ReadLock_inner r) as [-> ->]; [unfold SizeT.max; lia |].
    destruct (IH (r + 1)) as [-> ->]; [lia | lia |].
    split; [reflexivity | f_equal; lia].
Qed.

Lemma inner_read_unlocks (k : nat) :
  forall r, 1 <= r -> r + Z.of_nat k < SizeT.modulus ->
    calls_each (repeat OpReadUnlock k) (TLS (r + Z.of_nat k) 0) = repeat [] k /\
    locals_after (repeat OpReadUnlock k) (TLS (r + Z.of_nat k) 0) = TLS r 0.
Proof.
  induction k as [| k IH]; intros r Hr Hk.
  - cbn. rewrite Z.add_0_r. split; reflexivity.
  - cbn [repeat]. rewrite calls_each_cons, locals_after_cons. cbn [method].
    replace (r + Z.of_nat (S k)) with ((r + Z.of_nat k) + 1) by lia.
    destruct (ReadUnlock_inner (r + Z.of_nat k)) as [-> ->];
      [unfold SizeT.max; lia |].
    destruct (IH r) as [-> ->]; [lia | lia |].
    split; reflexivity.
Qed.

(** The same at write depth >= 1 (the read depth does not matter there). *)
Lemma inner_write_locks (k : nat) :
  forall r w, 1 <= w -> w + Z.of_nat k < SizeT.modulus ->
    calls_each (repeat OpWriteLock k) (TLS r w) = repeat [] k /\
    locals_after (repeat OpWriteLock k) (TLS r w) = TLS r (w + Z.of_nat k).
Proof.
  induction k as [| k IH]; intros r w Hw Hk.
  - cbn. rewrite Z.add_0_r. split; reflexivity.
  - cbn [repeat]. rewrite calls_each_cons, locals_after_cons. cbn [method].
    destruct (WriteLock_inner r w) as [-> ->]; [unfold SizeT.max; lia |].
    destruct (IH r (w + 1)) as [-> ->]; [lia | lia |].
    split; [reflexivity | f_equal; lia].
Qed.

Lemma inner_write_unlocks (k : nat) :
  forall r w, 1 <= w -> w + Z.of_nat k < SizeT.modulus ->
    calls_each (repeat OpWriteUnlock k) (TLS r (w + Z.of_nat k)) = repeat [] k /\
    locals_after (repeat OpWriteUnlock k) (TLS r (w + Z.of_nat k)) = TLS r w.
Proof.
  induction k as [| k IH]; intros r w Hw Hk.
  - cbn. rewrite Z.add_0_r. split; reflexivity.
  - cbn [repeat]. rewrite calls_each_cons, locals_after_cons. cbn [method].
    replace (w + Z.of_nat (S k)) with ((w + Z.of_nat k) + 1) by lia.
    destruct (WriteUnlock_inner r (w + Z.of_nat k)) as [-> ->];
      [unfold SizeT.max; lia |].
    destruct (IH r w) as [-> ->]; [lia | lia |].
    split; reflexivity.
Qed.

Lemma concat_repeat_nil {A} (k : nat) : concat (repeat (@nil A) k) = [].
Proof. induction k; [reflexivity | exact IHk]. Qed.

Lemma nested_reads (m : nat) :
  Z.of_nat (S m) < SizeT.modulus ->
  let ops := repeat OpReadLock (S m) ++ repeat OpReadUnlock (S m) in
  calls_each ops clean =
    [Rwmx_ReadLock] :: repeat [] m ++ repeat [] m ++ [[Rwmx_ReadUnlock]] /\
  locals_after ops clean = clean.
Proof.
  intros Hm ops. subst ops.
  change (repeat OpReadUnlock (S m))
    with (OpReadUnlock :: repeat OpReadUnlock m).
  rewrite (repeat_cons m OpReadUnlock).
  change (repeat OpReadLock (S m)) with ([OpReadLock] ++ repeat OpReadLock m).
  destruct (inner_read_locks m 1) as [Hc1 Hl1]; [lia | lia |].
  destruct (inner_read_unlocks m 1) as [Hc2 Hl2]; [lia | lia |].
  assert (Hfirst : locals_after [OpReadLock] clean = TLS 1 0) by reflexivity.
  assert (Hcf : calls_each [OpReadLock] clean = [[Rwmx_ReadLock]])
    by reflexivity.
  split.
  - rewrite <- app_assoc, calls_each_app, Hcf, Hfirst.
    rewrite calls_each_app, Hc1, Hl1.
    rewrite calls_each_app, Hc2, Hl2. reflexivity.
  - rewrite <- app_assoc, !locals_after_app, Hfirst, Hl1, Hl2. reflexivity.
Qed.

Lemma nested_writes (m : nat) :
  Z.of_nat (S m) < SizeT.modulus ->
  let ops := repeat OpWriteLock (S m) ++ repeat OpWriteUnlock (S m) in
  calls_each ops clean =
    [Rwmx_WriteLock] :: repeat [] m ++ repeat [] m ++ [[Rwmx_WriteUnlock]] /\
  locals_after ops clean = clean.
Proof.
  intros Hm ops. subst ops.
  change (repeat OpWriteUnlock (S m))
    with (OpWriteUnlock :: repeat OpWriteUnlock m).
  rewrite (repeat_cons m OpWriteUnlock).
  change (repeat OpWriteLock (S m)) with ([OpWriteLock] ++ repeat OpWriteLock m).
  destruct (inner_write_locks m 0 1) as [Hc1 Hl1]; [lia | lia |].
  destruct (inner_write_unlocks m 0 1) as [Hc2 Hl2]; [lia | lia |].
  assert (Hfirst : locals_after [OpWriteLock] clean = TLS 0 1) by reflexivity.
  assert (Hcf : calls_each [OpWriteLock] clean = [[Rwmx_WriteLock]])
    by reflexivity.
  split.
  - rewrite <- app_assoc, calls_each_app, Hcf, Hfirst.
    rewrite calls_each_app, Hc1, Hl1.
    rewrite calls_each_app, Hc2, Hl2. reflexivity.
  - rewrite <- app_assoc, !locals_after_app, Hfirst, Hl1, Hl2. reflexivity.
Qed.

Lemma trace_of_calls (ops : list op) (st : thread_locals) (m : nat)
      (c1 c2 : base_call) :
  calls_each ops st = [c1] :: repeat [] m ++ repeat [] m ++ [[c2]] ->
  trace ops st = [c1; c2].
Proof.
  intros H. unfold trace. rewrite H. cbn [concat app].
  rewrite !concat_app, !concat_repeat_nil. reflexivity.
Qed.

(** C7.  [n >= 1] nested [ReadLock] calls followed by [n] [ReadUnlock] calls,
    from the clean state, make exactly one call [Rwmx.ReadLock()], in the
    first lock, and exactly one call [Rwmx.ReadUnlock()], in the last unlock;
    the calls made on [Rwmx] (all another thread can observe) and the final
    state of the thread are those of a single [ReadLock]/[ReadUnlock] pair.
    The same holds for [WriteLock]/[WriteUnlock].  The depth counters are
    [std::size_t]: [n] is taken below 2^64. *)
Theorem nested_pairs_collapse (n : nat) :
  (1 <= n)%nat ->
  Z.of_nat n < SizeT.modulus ->
  let reads := repeat OpReadLock n ++ repeat OpReadUnlock n in
  let writes := repeat OpWriteLock n ++ repeat OpWriteUnlock n in
  (calls_each reads clean =
     [Rwmx_ReadLock] :: repeat [] (n - 1) ++ repeat [] (n - 1)
       ++ [[Rwmx_ReadUnlock]] /\
   trace reads clean = [Rwmx_ReadLock; Rwmx_ReadUnlock] /\
   trace reads clean = trace [OpReadLock; OpReadUnlock] clean /\
   run_ops reads fresh = run_ops [OpReadLock; OpReadUnlock] fresh) /\
  (calls_each writes clean =
     [Rwmx_WriteLock] :: repeat [] (n - 1) ++ repeat [] (n - 1)
       ++ [[Rwmx_WriteUnlock]] /\
   trace writes clean = [Rwmx_WriteLock; Rwmx_WriteUnlock] /\
   trace writes clean = trace [OpWriteLock; OpWriteUnlock] clean /\
   run_ops writes fresh = run_ops [OpWriteLock; OpWriteUnlock] fresh).
Proof.
  intros Hn Hlt reads writes. subst reads writes.
  destruct n as [| m]; [lia |].
  replace (S m - 1)%nat with m by lia.
  destruct (nested_reads m Hlt) as [Hrc Hrl].
  destruct (nested_writes m Hlt) as [Hwc Hwl].
  pose proof (trace_of_calls _ _ _ _ _ Hrc) as Hrt.
  pose proof (trace_of_calls _ _ _ _ _ Hwc) as Hwt.
  split.
  - split; [exact Hrc |]. split; [exact Hrt |]. split; [exact Hrt |].
    apply thread_eq.
    + rewrite run_locals. cbn [locals fresh]. rewrite Hrl. reflexivity.
    + rewrite run_held. cbn [locals held fresh]. rewrite Hrt. reflexivity.
  - split; [exact Hwc |]. split; [exact Hwt |]. split; [exact Hwt |].
    apply thread_eq.
    + rewrite run_locals. cbn [locals fresh]. rewrite Hwl. reflexivity.
    + rewrite run_held. cbn [locals held fresh]. rewrite Hwt. reflexivity.
Qed.

Lemma nested_pairs_collapse_witness :
  calls_each (repeat OpReadLock 3 ++ repeat OpReadUnlock 3) clean =
    [[Rwmx_ReadLock]; []; []; []; []; [Rwmx_ReadUnlock]] /\
  calls_each (repeat OpWriteLock 3 ++ repeat OpWriteUnlock 3) clean =
    [[Rwmx_WriteLock]; []; []; []; []; [Rwmx_WriteUnlock]].
Proof.
  assert (H1 : (1 <= 3)%nat) by lia.
  assert (H2 : Z.of_nat 3 < SizeT.modulus) by (unfold SizeT.modulus; lia).
  split.
  - apply (nested_pairs_collapse 3 H1 H2).
  - apply (nested_pairs_collapse 3 H1 H2).
Defined.

(** *** Unlock without a matching lock *)

Lemma state_after_wf (o : op) (st : thread_locals) :
  wf st -> wf (state_after (method o) st).
Proof.
  intros [Hr Hw]. destruct o; cbn [method]; unfold_method; unfold wf;
    case_tests; cbn [LocalThreadReadLockCounter LocalThreadWriteLockCounter];
    split; try assumption; apply SizeTFacts.wrap_in_range.
Qed.

(** C9, as the specification states it, fails on the clean state: the
    source's [ReadUnlock] and [WriteUnlock] complete where the fail-fast
    policy reports a violation. *)
Lemma unmatched_unlock_not_fail_fast :
  observe ReadUnlock clean <> ReadUnlock_fail_fast clean /\
  observe WriteUnlock clean <> WriteUnlock_fail_fast clean /\
  observe ReadUnlock clean = Completed (TLS SizeT.max 0) [] /\
  observe WriteUnlock clean = Completed (TLS 0 SizeT.max) [].
Proof.
  repeat split; discriminate.
Qed.

(** C9, amended.  The depths never go negative (they are unsigned 64-bit
    values, and stay in range after every operation), but an unlock with no
    matching lock is not detected: [ReadUnlock] at write depth 0 and read
    depth 0 completes, makes no call on [Rwmx] and leaves the read depth at
    2^64 - 1; [WriteUnlock] at write depth 0 completes, makes no call on
    [Rwmx] and leaves the write depth at 2^64 - 1. *)
Theorem unmatched_unlock_wraps (st : thread_locals) :
  wf st ->
  (forall o, wf (state_after (method o) st)) /\
  (LocalThreadWriteLockCounter st = 0 ->
   LocalThreadReadLockCounter st = 0 ->
   observe ReadUnlock st = Completed (TLS (2 ^ 64 - 1) 0) []) /\
  (LocalThreadWriteLockCounter st = 0 ->
   observe WriteUnlock st =
     Completed (TLS (LocalThreadReadLockCounter st) (2 ^ 64 - 1)) []).
Proof.
  intros Hwf. split; [| split].
  - intros o. apply state_after_wf. exact Hwf.
  - destruct st as [rd wd]. cbn. intros -> ->. reflexivity.
  - destruct st as [rd wd]. cbn. intros ->. reflexivity.
Qed.

Lemma unmatched_unlock_wraps_witness :
  wf (state_after (method OpReadUnlock) (TLS 0 0)) /\
  observe ReadUnlock (TLS 0 0) = Completed (TLS (2 ^ 64 - 1) 0) [] /\
  observe WriteUnlock (TLS 5 0) = Completed (TLS 5 (2 ^ 64 - 1)) [].
Proof.
  assert (W0 : wf (TLS 0 0)) by (vm_compute; intuition discriminate).
  assert (W5 : wf (TLS 5 0)) by (vm_compute; intuition discriminate).
  split; [| split].
  - apply (unmatched_unlock_wraps (TLS 0 0) W0).
  - apply (unmatched_unlock_wraps (TLS 0 0) W0); reflexivity.
  - apply (unmatched_unlock_wraps (TLS 5 0) W5). reflexivity.
Defined.

(** C10.  The depths are unsigned 64-bit: [ReadUnlock] at read depth 0 and
    write depth 0 leaves the read depth at 2^64 - 1, [WriteUnlock] at write
    depth 0 leaves the write depth at 2^64 - 1.  [ReadLock] inside a write
    section does not record the nesting, so WriteLock; ReadLock; WriteUnlock;
    ReadUnlock from the clean state runs to completion and ends with read
    depth 2^64 - 1 (and write depth 0), the thread holding nothing. *)
Theorem unsigned_depths_wrap :
  ReadUnlock clean = (tt, TLS (2 ^ 64 - 1) 0, []) /\
  (forall rd, WriteUnlock (TLS rd 0) = (tt, TLS rd (2 ^ 64 - 1), [])) /\
  let ops := [OpWriteLock; OpReadLock; OpWriteUnlock; OpReadUnlock] in
  run_ops ops fresh = Thread (TLS (2 ^ 64 - 1) 0) no_hold /\
  calls_each ops clean = [[Rwmx_WriteLock]; []; [Rwmx_WriteUnlock]; []] /\
  locals_after [OpWriteLock; OpReadLock] clean
    = locals_after [OpWriteLock] clean.
Proof.
  split; [reflexivity |]. split; [| repeat split].
  intros rd. rewrite WriteUnlock_unfold. reflexivity.
Qed.

End RecursiveFacts.

(** ** Properties of the lock *)

Module BaseFacts.
Import Base.

(** *** The line a thread stands at, after an update *)

Lemma pc_in_lookup (l : list pc) (t : tid) (p : pc) :
  l !! t = Some p -> pc_in l t = p.
Proof. unfold pc_in. intros ->. reflexivity. Qed.

Lemma pc_in_insert (l : list pc) (t u : tid) (p q : pc) :
  l !! t = Some p ->
  pc_in (<[t := q]> l) u = if Nat.eqb u t then q else pc_in l u.
Proof.
  intros Hp. unfold pc_in.
  destruct (Nat.eqb_spec u t) as [-> | Hne].
  - rewrite list_lookup_insert_eq; [reflexivity |].
    apply lookup_lt_Some in Hp. exact Hp.
  - rewrite list_lookup_insert_ne by congruence. reflexivity.
Qed.

Lemma pc_in_wake (l : list pc) (u : tid) :
  pc_in (wake <$> l) u = wake (pc_in l u).
Proof.
  unfold pc_in. rewrite list_lookup_fmap.
  destruct (l !! u); cbn; reflexivity.
Qed.

Lemma lookup_wake (l : list pc) (t : tid) (p : pc) :
  l !! t = Some p -> (wake <$> l) !! t = Some (wake p).
Proof. intros H. rewrite list_lookup_fmap, H. reflexivity. Qed.

Lemma wake_owns_WriteMutex p : owns_WriteMutex (wake p) = owns_WriteMutex p.
Proof. destruct p; reflexivity. Qed.
Lemma wake_owns_ReadMutex p : owns_ReadMutex (wake p) = owns_ReadMutex p.
Proof. destruct p; reflexivity. Qed.
Lemma wake_flag_raised p : flag_raised (wake p) = flag_raised p.
Proof. destruct p; reflexivity. Qed.
Lemma wake_notifying p : notifying (wake p) = notifying p.
Proof. destruct p; reflexivity. Qed.
Lemma wake_in_notify_loop p : in_notify_loop (wake p) = in_notify_loop p.
Proof. destruct p; reflexivity. Qed.
Lemma wake_counted p : counted (wake p) = counted p.
Proof. destruct p; reflexivity. Qed.
Lemma wake_waiting p : waiting (wake p) = true -> waiting p = true.
Proof. destruct p; cbn; congruence. Qed.
Lemma wake_past_wait p :
  past_wait (wake p) = true -> past_wait p = true \/ p = WL74_blocked.
Proof. destruct p; cbn; auto. Qed.

Lemma waiting_owns p : waiting p = true -> owns_WriteMutex p = true.
Proof. destruct p; cbn; congruence. Qed.
Lemma waiting_flag p : waiting p = true -> flag_raised p = true.
Proof. destruct p; cbn; congruence. Qed.
Lemma loop_owns p : in_notify_loop p = true -> owns_ReadMutex p = true.
Proof. destruct p; cbn; congruence. Qed.
Lemma loop_notifying p : in_notify_loop p = true -> notifying p = true.
Proof. destruct p; cbn; congruence. Qed.
Lemma notifying_owns p : notifying p = true -> owns_ReadMutex p = true.
Proof. destruct p; cbn; congruence. Qed.
Lemma past_wait_owns p : past_wait p = true -> owns_WriteMutex p = true.
Proof. destruct p; cbn; congruence. Qed.
Lemma writer_section_owns p :
  writer_section p = true -> owns_WriteMutex p = true.
Proof. destruct p; cbn; congruence. Qed.
Lemma past_gate_owns p : past_gate p = true -> owns_WriteMutex p = true.
Proof. destruct p; cbn; congruence. Qed.

(** *** [int] arithmetic *)

Lemma int_wrap_in_range (z : Z) : IntT.is_int (IntT.wrap_int z).
Proof.
  unfold IntT.is_int, IntT.wrap_int, IntT.INT_MIN, IntT.INT_MAX.
  pose proof (Z.mod_pos_bound (z + 2 ^ 31) (2 ^ 32)). lia.
Qed.

Lemma int_wrap_small (z : Z) : IntT.is_int z -> IntT.wrap_int z = z.
Proof.
  unfold IntT.is_int, IntT.wrap_int, IntT.INT_MIN, IntT.INT_MAX. intros H.
  rewrite Z.mod_small; lia.
Qed.

Lemma pc_at_init (n : nat) (t : tid) : pc_at (init n) t = Idle.
Proof.
  unfold pc_at, pc_in, init. cbn [threads].
  destruct (repeat Idle n !! t) as [p |] eqn:H; [| reflexivity].
  apply list_elem_of_lookup_2 in H. apply list_elem_of_In in H.
  apply repeat_spec in H. exact H.
Qed.

Lemma inv_init (n : nat) : inv (init n).
Proof.
  split; try intros t; rewrite ?pc_at_init; cbn;
    unfold IntT.is_int, IntT.INT_MIN, IntT.INT_MAX;
    try (split; intros; discriminate); try reflexivity; try discriminate; lia.
Qed.

(** *** Every event keeps the invariant

    The proof goes through the events and the program points; what is left
    at each of them is propositional, and closed by the tactics below. *)

(** What a program point implies for its thread. *)
Ltac pc_facts :=
  repeat match goal with
  | H : waiting ?p = true |- _ =>
      lazymatch goal with
      | _ : owns_WriteMutex p = true |- _ => fail
      | _ => pose proof (waiting_owns _ H); pose proof (waiting_flag _ H)
      end
  | H : in_notify_loop ?p = true |- _ =>
      lazymatch goal with
      | _ : notifying p = true |- _ => fail
      | _ => pose proof (loop_notifying _ H)
      end
  | H : notifying ?p = true |- _ =>
      lazymatch goal with
      | _ : owns_ReadMutex p = true |- _ => fail
      | _ => pose proof (notifying_owns _ H)
      end
  end.

(** The quantified parts of the invariant, at thread [x]. *)
Ltac inst_at HW HR Hwt Hlp x :=
  let a := fresh "HW" x in pose proof (HW x) as a;
  let b := fresh "HR" x in pose proof (HR x) as b;
  let c := fresh "Hwt" x in pose proof (Hwt x) as c;
  let d := fresh "Hlp" x in pose proof (Hlp x) as d.

(** Case analysis on the tests of the step and on "is it thread [t]". *)
Ltac split_cases t :=
  rewrite ?Nat.eqb_refl;
  repeat match goal with
  | |- context [if ?c =? 0 then _ else _] => destruct (Z.eqb_spec c 0)
  | |- context [if 0 <? ?c then _ else _] => destruct (Z.ltb_spec 0 c)
  | |- context [if ?b then _ else _] => is_var b; destruct b
  | |- context [match ?m with Some _ => _ | None => _ end] =>
      is_var m; destruct m
  | H : context [match ?m with Some _ => _ | None => _ end] |- _ =>
      is_var m; destruct m
  | |- context [Nat.eqb ?x t] =>
      destruct (Nat.eqb_spec x t); [subst x |]
  | H : context [Nat.eqb ?x t] |- _ =>
      destruct (Nat.eqb_spec x t); [subst x |]
  end.

(** One part of the invariant after thread [t] has moved. *)
Ltac finish HW HR Hwt Hlp Hp t :=
  split_cases t;
  rewrite ?(pc_in_insert _ _ _ _ _ Hp),
          ?(pc_in_insert _ _ _ _ _ (lookup_wake _ _ _ Hp)), ?pc_in_wake;
  split_cases t;
  inst_at HW HR Hwt Hlp t;
  repeat match goal with
  | x : nat |- _ =>
      lazymatch x with t => fail | _ => idtac end;
      lazymatch goal with
      | _ : owns_WriteMutex (pc_in _ x) = true <-> _ |- _ => fail
      | _ => inst_at HW HR Hwt Hlp x
      end
  end;
  clear HW HR Hwt Hlp;
  repeat match goal with
  | Hpt : pc_in _ t = _, H : context [pc_in _ t] |- _ =>
      lazymatch type of H with
      | pc_in _ t = _ => fail
      | _ => rewrite Hpt in H
      end
  end;
  cbn in *;
  repeat match goal with
  | H : true = true <-> Some ?a = Some t |- _ =>
      let E := fresh in
      assert (E : a = t)
        by (destruct H as [H' _]; injection (H' eq_refl); auto);
      subst a
  end;
  repeat match goal with
  | Hpt : pc_in _ t = _, H : context [pc_in _ t] |- _ =>
      lazymatch type of H with
      | pc_in _ t = _ => fail
      | _ => rewrite Hpt in H
      end
  end;
  rewrite ?wake_owns_WriteMutex, ?wake_owns_ReadMutex, ?wake_flag_raised,
    ?wake_notifying, ?wake_in_notify_loop;
  cbn in *;
  try solve [intuition (try congruence; try lia)];
  try solve [intros; pc_facts; intuition (try congruence; try lia)];
  try solve [
    intros;
    repeat match goal with
    | H : waiting (wake _) = true |- _ => apply wake_waiting in H
    end;
    pc_facts;
    repeat match goal with
    | |- context [IntT.wrap_int ?z] =>
        lazymatch goal with
        | _ : IntT.is_int z -> IntT.wrap_int z = z |- _ => fail
        | _ => pose proof (int_wrap_small z); pose proof (int_wrap_in_range z)
        end
    end;
    unfold IntT.is_int, IntT.INT_MIN, IntT.INT_MAX in *;
    intuition (try congruence; try lia)].

Lemma inv_exec (s s' : state) (e : event) :
  inv s -> exec e s = Some s' -> inv s'.
Proof.
  intros Hinv Hexec.
  destruct s as [wm rm c b l].
  destruct Hinv as [HW HR Hf Hr Hwt Hlp].
  unfold pc_at in *. cbn [WriteMutex ReadMutex ReadCounter IsCondVarWaiting threads] in *.
  destruct e as [t m | t | t]; cbn [exec threads] in Hexec;
    destruct (l !! t) as [p |] eqn:Hp; try discriminate;
    pose proof (pc_in_lookup _ _ _ Hp) as Hpt.
  - (* Call *)
    destruct (call_at m p) as [q |] eqn:Hq; [| discriminate].
    injection Hexec as <-.
    destruct m, p; try discriminate; injection Hq as <-.
    all: constructor; unfold pc_at;
      cbn [set_pc WriteMutex ReadMutex ReadCounter IsCondVarWaiting threads];
      try assumption; try intros u; rewrite ?(pc_in_insert _ _ _ _ _ Hp).
    all: finish HW HR Hwt Hlp Hp t.
  - (* Step *)
    destruct p; cbn [step_at WriteMutex ReadMutex ReadCounter IsCondVarWaiting] in Hexec;
      try discriminate;
      try (destruct wm as [w0 |] eqn:Hwm; [discriminate |]);
      try (destruct rm as [r0 |] eqn:Hrm; [discriminate |]);
      injection Hexec as <-.
    all: constructor; unfold pc_at;
      cbn [set_pc set_WriteMutex set_ReadMutex set_ReadCounter
           set_IsCondVarWaiting notify_all
           WriteMutex ReadMutex ReadCounter IsCondVarWaiting threads];
      try assumption; try apply int_wrap_in_range; try intros u.
    all: finish HW HR Hwt Hlp Hp t.
  - (* Spurious *)
    destruct p; try discriminate. injection Hexec as <-.
    constructor; unfold pc_at;
      cbn [set_pc WriteMutex ReadMutex ReadCounter IsCondVarWaiting threads];
      try assumption; try intros u.
    all: finish HW HR Hwt Hlp Hp t.
Qed.

Lemma reachable_inv ok n s : reachable_by ok n s -> inv s.
Proof.
  induction 1 as [| s s' e _ IH _ Hex].
  - apply inv_init.
  - exact (inv_exec s s' e IH Hex).
Qed.


(** *** Counting the readers *)

Lemma count_bounds (l : list pc) :
  0 <= count_readers l <= Z.of_nat (length l).
Proof.
  induction l as [| p l IH]; cbn [count_readers length]; [lia |].
  destruct (counted p); lia.
Qed.

Lemma count_insert (l : list pc) :
  forall (t : tid) (p q : pc),
    l !! t = Some p ->
    count_readers (<[t := q]> l) =
    count_readers l - (if counted p then 1 else 0)
                    + (if counted q then 1 else 0).
Proof.
  induction l as [| a l IH]; intros t p q H; [discriminate |].
  destruct t as [| t].
  - cbn in H. injection H as ->.
    change (<[0%nat := q]> (p :: l)) with (q :: l).
    cbn [count_readers]. lia.
  - cbn in H.
    change (<[S t := q]> (a :: l)) with (a :: <[t := q]> l).
    cbn [count_readers]. rewrite (IH t p q H). lia.
Qed.

Lemma count_wake (l : list pc) :
  count_readers (wake <$> l) = count_readers l.
Proof.
  induction l as [| a l IH]; [reflexivity |].
  cbn. rewrite wake_counted. cbn in IH. rewrite IH. reflexivity.
Qed.

Lemma count_pos (l : list pc) (t : tid) (p : pc) :
  l !! t = Some p -> counted p = true -> 1 <= count_readers l.
Proof.
  intros H Hc. pose proof (count_insert l t p Idle H) as Hi.
  pose proof (count_bounds (<[t := Idle]> l)) as Hb.
  rewrite Hc in Hi. cbn in Hi. lia.
Qed.

Lemma counter_exact_exec (s s' : state) (e : event) :
  counter_exact s -> exec e s = Some s' -> counter_exact s'.
Proof.
  intros [Hc Hn] Hexec.
  destruct s as [wm rm c b l]. cbn [ReadCounter threads] in *.
  pose proof (count_bounds l) as Hb.
  destruct e as [t m | t | t]; cbn [exec threads] in Hexec;
    destruct (l !! t) as [p |] eqn:Hp; try discriminate.
  - destruct (call_at m p) as [q |] eqn:Hq; [| discriminate].
    injection Hexec as <-.
    destruct m, p; try discriminate; injection Hq as <-;
      split; cbn [set_pc ReadCounter threads];
      rewrite ?length_insert, ?(count_insert _ _ _ _ Hp); cbn; lia.
  - pose proof (count_insert l t p) as Hi. specialize (fun q => Hi q Hp).
    assert (Hpos : counted p = true -> 1 <= count_readers l)
      by (apply (count_pos l t p Hp)).
    assert (Hroom : counted p = false ->
                    count_readers l + 1 <= Z.of_nat (length l)).
    { intros Hf. pose proof (count_bounds (<[t := Reading]> l)) as Hb'.
      rewrite length_insert, (Hi Reading), Hf in Hb'. cbn in Hb'. lia. }
    destruct p; cbn [step_at WriteMutex ReadMutex ReadCounter
                     IsCondVarWaiting] in Hexec;
      try discriminate;
      try (destruct wm; [discriminate |]);
      try (destruct rm; [discriminate |]);
      injection Hexec as <-;
      split; cbn [set_pc set_WriteMutex set_ReadMutex set_ReadCounter
                  set_IsCondVarWaiting notify_all ReadCounter threads];
      rewrite ?length_insert, ?length_fmap; try assumption;
      try (rewrite (count_insert _ _ _ _ (lookup_wake _ _ _ Hp)), count_wake);
      rewrite ?Hi; cbn in *;
      try (rewrite int_wrap_small
             by (unfold IntT.is_int, IntT.INT_MIN, IntT.INT_MAX in *; lia));
      try lia.
    + destruct (c =? 0); cbn; lia.
    + destruct b; cbn; lia.
    + destruct (0 <? c); cbn; lia.
  - destruct p; try discriminate. injection Hexec as <-.
    split; cbn [set_pc ReadCounter threads];
      rewrite ?length_insert, ?(count_insert _ _ _ _ Hp); cbn; lia.
Qed.

(** *** A writer past line 74, when [Cv.wait] is left by notification only *)

Ltac finish_zero HW HR Hlp HG Hp Hpt t u :=
  rewrite ?(pc_in_insert _ _ _ _ _ Hp),
          ?(pc_in_insert _ _ _ _ _ (lookup_wake _ _ _ Hp)), ?pc_in_wake;
  split_cases t;
  pose proof (HW t) as HWt; pose proof (HR t) as HRt;
  pose proof (Hlp t) as Hlpt; pose proof (HG t) as HGt;
  try (pose proof (HW u) as HWu; pose proof (HR u) as HRu;
       pose proof (HG u) as HGu);
  clear HW HR Hlp HG;
  rewrite ?Hpt in *; cbn in *;
  intros;
  repeat match goal with
  | H : past_wait (wake _) = true |- _ =>
      apply wake_past_wait in H; destruct H as [H | H]
  | H : past_wait _ = true |- _ =>
      lazymatch goal with
      | _ : owns_WriteMutex _ = true |- _ => fail
      | _ => pose proof (past_wait_owns _ H)
      end
  end;
  repeat match goal with
  | |- context [IntT.wrap_int ?z] =>
      lazymatch goal with
      | _ : IntT.is_int z -> IntT.wrap_int z = z |- _ => fail
      | _ => pose proof (int_wrap_small z); pose proof (int_wrap_in_range z)
      end
  end;
  unfold IntT.is_int, IntT.INT_MIN, IntT.INT_MAX in *;
  try solve [intuition (try congruence; try lia)].

Lemma writer_sees_zero_exec (s s' : state) (e : event) :
  inv s -> counter_exact s -> writer_sees_zero s ->
  notified_only e = true -> exec e s = Some s' ->
  writer_sees_zero s'.
Proof.
  intros Hinv [Hc Hn] HG Hok Hexec.
  destruct s as [wm rm c b l].
  destruct Hinv as [HW HR Hf Hr Hwt Hlp]. clear Hwt.
  unfold writer_sees_zero, pc_at in *.
  cbn [WriteMutex ReadMutex ReadCounter IsCondVarWaiting threads] in *.
  pose proof (count_bounds l) as Hb.
  destruct e as [t m | t | t]; [| | discriminate Hok];
    cbn [exec threads] in Hexec;
    destruct (l !! t) as [p |] eqn:Hp; try discriminate;
    pose proof (pc_in_lookup _ _ _ Hp) as Hpt;
    pose proof (count_pos l t p Hp) as Hpos.
  - destruct (call_at m p) as [q |] eqn:Hq; [| discriminate].
    injection Hexec as <-.
    destruct m, p; try discriminate; injection Hq as <-;
      cbn [set_pc ReadCounter threads]; intros u;
      finish_zero HW HR Hlp HG Hp Hpt t u.
  - destruct p; cbn [step_at WriteMutex ReadMutex ReadCounter
                     IsCondVarWaiting] in Hexec;
      try discriminate;
      try (destruct wm; [discriminate |]);
      try (destruct rm; [discriminate |]);
      injection Hexec as <-;
      cbn [set_pc set_WriteMutex set_ReadMutex set_ReadCounter
           set_IsCondVarWaiting notify_all ReadCounter threads];
      intros u; finish_zero HW HR Hlp HG Hp Hpt t u.
Qed.

Lemma count_init (n : nat) : count_readers (repeat Idle n) = 0.
Proof. induction n as [| n IH]; [reflexivity | exact IH]. Qed.

Lemma counter_exact_init (n : nat) :
  Z.of_nat n <= IntT.INT_MAX -> counter_exact (init n).
Proof.
  intros H. split; cbn [init ReadCounter threads].
  - rewrite count_init. reflexivity.
  - rewrite repeat_length. exact H.
Qed.

Lemma reachable_counter_exact ok n s :
  Z.of_nat n <= IntT.INT_MAX -> reachable_by ok n s -> counter_exact s.
Proof.
  intros Hn. induction 1 as [| s s' e _ IH _ Hex].
  - apply counter_exact_init. exact Hn.
  - exact (counter_exact_exec s s' e IH Hex).
Qed.

Lemma reachable_writer_sees_zero n s :
  Z.of_nat n <= IntT.INT_MAX ->
  reachable_by notified_only n s -> writer_sees_zero s.
Proof.
  intros Hn. induction 1 as [| s s' e Hs IH Hok Hex].
  - intros w. rewrite pc_at_init. discriminate.
  - apply (writer_sees_zero_exec s s' e); try assumption.
    + exact (reachable_inv _ _ _ Hs).
    + exact (reachable_counter_exact _ _ _ Hn Hs).
Qed.

Lemma lookup_of_pc_in (l : list pc) (t : tid) (p : pc) :
  pc_in l t = p -> p <> Idle -> l !! t = Some p.
Proof.
  unfold pc_in. destruct (l !! t) as [q |]; intros <- H; congruence.
Qed.

(** Where the clients keep their protocol, [Cv.wait] returns only after a
    notification and the threads are no more than an [int] counts, the lock
    excludes. *)
Lemma notified_only_excludes (n : nat) (s : state) :
  Z.of_nat n <= IntT.INT_MAX ->
  reachable_by notified_only n s ->
  mutual_exclusion s /\
  ReadCounter s = count_readers (threads s) /\
  (forall t, holds_exclusive s t -> ReadCounter s = 0).
Proof.
  intros Hn Hs.
  pose proof (reachable_inv _ _ _ Hs) as Hinv.
  pose proof (reachable_counter_exact _ _ _ Hn Hs) as [Hc _].
  pose proof (reachable_writer_sees_zero _ _ Hn Hs) as Hz.
  assert (Hzero : forall t, holds_exclusive s t -> ReadCounter s = 0).
  { intros t Ht. apply (Hz t). unfold holds_exclusive in Ht.
    rewrite Ht. reflexivity. }
  split; [| split; [exact Hc | exact Hzero]].
  intros t u Ht. specialize (Hzero t Ht).
  unfold holds_exclusive, holds_shared in *. split.
  - intros Hu.
    pose proof (proj1 (inv_W s Hinv t)) as Wt.
    pose proof (proj1 (inv_W s Hinv u)) as Wu.
    rewrite Ht in Wt. rewrite Hu in Wu.
    specialize (Wt eq_refl). specialize (Wu eq_refl). congruence.
  - intros Hu.
    assert (Hl : threads s !! u = Some Reading)
      by (apply lookup_of_pc_in; [exact Hu | discriminate]).
    pose proof (count_pos _ _ _ Hl eq_refl). lia.
Qed.

(** *** A schedule with a spurious wake-up *)

Lemma run_reachable (n : nat) (evs : list event) :
  forall s s', reachable n s -> run evs s = Some s' -> reachable n s'.
Proof.
  induction evs as [| e evs IH]; intros s s' Hs Hrun.
  - cbn in Hrun. injection Hrun as <-. exact Hs.
  - cbn [run] in Hrun. destruct (exec e s) as [s1 |] eqn:He; [| discriminate].
    apply (IH s1); [| exact Hrun].
    exact (reach_exec any_event n s s1 e Hs eq_refl He).
Qed.

(** C1.  Mutual exclusion does not hold in every execution.  With two
    threads: thread 0 runs [ReadLock] to its end; thread 1 runs [WriteLock]
    through lines 70 and 72, reads [ReadCounter = 1 > 0] at line 74 and blocks
    in [Cv.wait(lk)]; the wait returns spuriously (line 74 tests with [if],
    not in a loop); thread 1 runs line 76 and returns.  Thread 0 then holds
    the lock in shared mode while thread 1 holds it in exclusive mode, with
    [ReadCounter = 1]. *)
Theorem spurious_wakeup_breaks_exclusion :
  exists s,
    run spurious_schedule (init 2) = Some s /\
    reachable 2 s /\
    holds_shared s 0%nat /\ holds_exclusive s 1%nat /\
    ReadCounter s = 1 /\
    ~ mutual_exclusion s.
Proof.
  exists (State (Some 1%nat) None 1 false [Reading; Writing]).
  assert (Hrun : run spurious_schedule (init 2) =
                 Some (State (Some 1%nat) None 1 false [Reading; Writing]))
    by reflexivity.
  split; [exact Hrun |].
  split; [| split; [reflexivity | split; [reflexivity | split; [reflexivity |]]]].
  - apply (run_reachable 2 spurious_schedule (init 2)); [apply reach_init | exact Hrun].
  - intros H. destruct (H 1%nat 0%nat eq_refl) as [_ Hno]. apply Hno. reflexivity.
Qed.

(** *** The wake-up of a waiting writer *)

(** The thread in the notify loop wakes a blocked writer in at most three of
    its own steps. *)
Lemma notifier_wakes (s : state) (r w : tid) :
  IsCondVarWaiting s = true ->
  ReadCounter s = 0 ->
  pc_at s w = WL74_blocked ->
  notifying (pc_at s r) = true ->
  exists (k : nat) (s' : state),
    (k <= 3)%nat /\ run (repeat (Step r) k) s = Some s' /\ pc_at s' w = WL76.
Proof.
  intros Hflag Hzero Hw Hr.
  assert (Hne : w <> r) by (intros ->; rewrite Hw in Hr; discriminate).
  apply Nat.eqb_neq in Hne.
  destruct s as [wm rm c b l].
  unfold pc_at in *. cbn [threads IsCondVarWaiting ReadCounter] in *. subst b c.
  assert (Hnotify : forall l0 wm0 rm0,
            l0 !! r = Some RU53_notify -> pc_in l0 w = WL74_blocked ->
            exists s', run [Step r] (State wm0 rm0 0 true l0) = Some s' /\
                       pc_in (threads s') w = WL76).
  { intros l0 wm0 rm0 Hl0 Hw0. eexists. split.
    - cbn [run exec threads]. rewrite Hl0. cbn [step_at]. reflexivity.
    - cbn [set_pc notify_all threads].
      rewrite (pc_in_insert _ _ _ _ _ (lookup_wake _ _ _ Hl0)), Hne.
      rewrite pc_in_wake, Hw0. reflexivity. }
  assert (Hload : forall l0 wm0 rm0,
            l0 !! r = Some RU53 -> pc_in l0 w = WL74_blocked ->
            exists s', run [Step r; Step r] (State wm0 rm0 0 true l0) = Some s' /\
                       pc_in (threads s') w = WL76).
  { intros l0 wm0 rm0 Hl0 Hw0.
    destruct (Hnotify (<[r := RU53_notify]> l0) wm0 rm0) as [s' [Hrun Hpc]].
    - apply list_lookup_insert_eq. apply lookup_lt_Some in Hl0. exact Hl0.
    - rewrite (pc_in_insert _ _ _ _ _ Hl0), Hne. exact Hw0.
    - exists s'. split; [| exact Hpc].
      cbn [run exec threads]. rewrite Hl0.
      cbn [step_at IsCondVarWaiting set_pc WriteMutex ReadMutex ReadCounter threads].
      exact Hrun. }
  destruct (pc_in l r) eqn:Hpr; try discriminate.
  - (* line 52 *)
    apply lookup_of_pc_in in Hpr; [| discriminate].
    destruct (Hload (<[r := RU53]> l) wm rm) as [s' [Hrun Hpc]].
    + apply list_lookup_insert_eq. apply lookup_lt_Some in Hpr. exact Hpr.
    + rewrite (pc_in_insert _ _ _ _ _ Hpr), Hne. exact Hw.
    + exists 3%nat, s'. split; [lia |]. split; [| exact Hpc].
      cbn [repeat run exec threads]. rewrite Hpr.
      cbn [step_at IsCondVarWaiting set_pc WriteMutex ReadMutex ReadCounter threads].
      exact Hrun.
  - apply lookup_of_pc_in in Hpr; [| discriminate].
    destruct (Hload l wm rm Hpr Hw) as [s' [Hrun Hpc]].
    exists 2%nat, s'. split; [lia |]. split; assumption.
  - apply lookup_of_pc_in in Hpr; [| discriminate].
    destruct (Hnotify l wm rm Hpr Hw) as [s' [Hrun Hpc]].
    exists 1%nat, s'. split; [lia |]. split; assumption.
Qed.

(** While a writer waits, only the [fetch_sub] of line 50 can take the counter
    to zero. *)
Lemma drained_by_ReadUnlock (s s' : state) (e : event) (w : tid) :
  inv s ->
  waiting (pc_at s w) = true ->
  exec e s = Some s' ->
  0 < ReadCounter s -> ReadCounter s' = 0 ->
  exists r, e = Step r /\ pc_at s r = RU50 /\ pc_at s' r = RU52 /\
            ReadMutex s' = Some r /\ waiting (pc_at s' w) = true.
Proof.
  intros Hinv Hw Hexec Hpos Hzero.
  pose proof (proj1 (inv_W s Hinv w) (waiting_owns _ Hw)) as HWw.
  destruct e as [t m | t | t]; cbn [exec] in Hexec;
    destruct (threads s !! t) as [p |] eqn:Hp; try discriminate.
  - destruct (call_at m p); [| discriminate]. injection Hexec as <-.
    cbn in Hzero. lia.
  - pose proof (inv_W s Hinv t) as HWt. pose proof (inv_R s Hinv t) as HRt.
    unfold pc_at in HWt, HRt. rewrite (pc_in_lookup _ _ _ Hp) in HWt, HRt.
    destruct p; cbn [step_at] in Hexec; try discriminate;
      try (destruct (WriteMutex s); [discriminate |]);
      try (destruct (ReadMutex s); [discriminate |]);
      injection Hexec as <-; cbn in Hzero; try lia.
    + (* line 41: the gate is the writer's *)
      exfalso. cbn in HWt. assert (t = w) as -> by (destruct HWt as [H _]; specialize (H eq_refl); congruence).
      unfold pc_at in Hw. rewrite (pc_in_lookup _ _ _ Hp) in Hw. discriminate.
    + (* line 50 *)
      exists t. split; [reflexivity |].
      split; [exact (pc_in_lookup _ _ _ Hp) |].
      assert (Hne : (w =? t)%nat = false).
      { apply Nat.eqb_neq. intros ->. unfold pc_at in Hw.
        rewrite (pc_in_lookup _ _ _ Hp) in Hw. discriminate. }
      unfold pc_at. cbn [set_pc set_ReadCounter threads ReadMutex].
      rewrite !(pc_in_insert _ _ _ _ _ Hp), Nat.eqb_refl, Hne.
      split; [reflexivity |]. split; [| exact Hw].
      apply HRt. reflexivity.
  - destruct p; try discriminate. injection Hexec as <-. cbn in Hzero. lia.
Qed.

(** While the writer keeps waiting with the readers gone, [ReadCounter] stays
    0 and [ReadMutex] stays with its owner. *)
Lemma notifier_stays (s s' : state) (e : event) (w r : tid) :
  inv s ->
  waiting (pc_at s w) = true ->
  ReadCounter s = 0 -> ReadMutex s = Some r ->
  exec e s = Some s' ->
  waiting (pc_at s' w) = true ->
  ReadCounter s' = 0 /\ ReadMutex s' = Some r.
Proof.
  intros Hinv Hw Hzero Hrm Hexec Hw'.
  pose proof (proj1 (inv_W s Hinv w) (waiting_owns _ Hw)) as HWw.
  assert (Hr : notifying (pc_at s r) = true).
  { destruct (inv_wait s Hinv w Hw) as [Hpos | [_ H]]; [lia |].
    rewrite Hrm in H. exact H. }
  destruct e as [t m | t | t]; cbn [exec] in Hexec;
    destruct (threads s !! t) as [p |] eqn:Hp; try discriminate.
  - destruct (call_at m p); [| discriminate]. injection Hexec as <-.
    split; assumption.
  - pose proof (inv_W s Hinv t) as HWt. pose proof (inv_R s Hinv t) as HRt.
    unfold pc_at in HWt, HRt, Hw, Hr.
    rewrite (pc_in_lookup _ _ _ Hp) in HWt, HRt.
    destruct p; cbn [step_at] in Hexec; try discriminate;
      rewrite ?HWw, ?Hrm in Hexec; try discriminate;
      injection Hexec as <-; cbn; try (split; assumption); exfalso;
      cbn in HWt, HRt.
    all: try (assert (t = w) as -> by (destruct HWt as [H _]; specialize (H eq_refl); congruence);
              rewrite (pc_in_lookup _ _ _ Hp) in Hw; discriminate).
    all: try (assert (t = r) as -> by (destruct HRt as [H _]; specialize (H eq_refl); congruence);
              rewrite (pc_in_lookup _ _ _ Hp) in Hr; discriminate).
  - destruct p; try discriminate. injection Hexec as <-. split; assumption.
Qed.

(** C5.  No wake-up is lost.  In every reachable state in which a writer [w]
    has read [ReadCounter > 0] at line 74 and is calling [Cv.wait] or blocked
    in it: [IsCondVarWaiting] is set and [w] owns [WriteMutex]; either
    readers have not drained ([ReadCounter > 0]), or [ReadCounter = 0] and
    the thread [r] that owns [ReadMutex] is inside [ReadUnlock], between the
    decrement and the end of the notify loop of line 53, and wakes a blocked
    [w] within three of its own steps.  The step that takes [ReadCounter]
    from a positive value to 0 while [w] waits is the [fetch_sub] of line 50
    of some thread [r], which then owns [ReadMutex]; and as long as [w]
    keeps waiting, [ReadCounter] stays 0 and [ReadMutex] stays with [r]: the
    [ReadUnlock] that drained the readers does not return before [w] is
    awake. *)
Theorem no_lost_wakeup (n : nat) (s : state) (w : tid) :
  reachable n s ->
  waiting (pc_at s w) = true ->
  (IsCondVarWaiting s = true /\ WriteMutex s = Some w) /\
  (0 < ReadCounter s \/
   ReadCounter s = 0 /\
   exists r,
     ReadMutex s = Some r /\ notifying (pc_at s r) = true /\
     (pc_at s w = WL74_blocked ->
      exists (k : nat) (s' : state),
        (k <= 3)%nat /\ run (repeat (Step r) k) s = Some s' /\
        pc_at s' w = WL76)) /\
  (forall e s',
     exec e s = Some s' -> 0 < ReadCounter s -> ReadCounter s' = 0 ->
     exists r, e = Step r /\ pc_at s r = RU50 /\ pc_at s' r = RU52 /\
               ReadMutex s' = Some r /\ waiting (pc_at s' w) = true) /\
  (forall r e s',
     ReadCounter s = 0 -> ReadMutex s = Some r ->
     exec e s = Some s' -> waiting (pc_at s' w) = true ->
     ReadCounter s' = 0 /\ ReadMutex s' = Some r).
Proof.
  intros Hs Hw. pose proof (reachable_inv _ _ _ Hs) as Hinv.
  pose proof (proj1 (inv_W s Hinv w) (waiting_owns _ Hw)) as HWw.
  assert (Hflag : IsCondVarWaiting s = true).
  { rewrite (inv_flag s Hinv), HWw. apply waiting_flag. exact Hw. }
  split; [split; assumption |]. split.
  - destruct (inv_wait s Hinv w Hw) as [Hpos | [Hzero Hr]]; [left; exact Hpos |].
    right. split; [exact Hzero |].
    destruct (ReadMutex s) as [r |]; [| discriminate].
    exists r. split; [reflexivity |]. split; [exact Hr |].
    intros Hb. exact (notifier_wakes s r w Hflag Hzero Hb Hr).
  - split.
    + intros e s' Hexec Hpos Hzero.
      exact (drained_by_ReadUnlock s s' e w Hinv Hw Hexec Hpos Hzero).
    + intros r e s' Hzero Hrm Hexec Hw'.
      exact (notifier_stays s s' e w r Hinv Hw Hzero Hrm Hexec Hw').
Qed.

(** *** [ReadLock] and the writer gate *)

Lemma step_from (t : tid) (p : pc) (l : list pc) wm rm c b :
  (t < length l)%nat ->
  exec (Step t) (State wm rm c b (<[t := p]> l)) =
  step_at t p (State wm rm c b (<[t := p]> l)).
Proof.
  intros H. cbn [exec threads]. rewrite list_lookup_insert_eq by exact H.
  reflexivity.
Qed.

Lemma ReadLock_alone (s : state) (t : tid) :
  threads s !! t = Some Idle ->
  WriteMutex s = None -> ReadMutex s = None ->
  let c := ReadCounter s in
  let b := IsCondVarWaiting s in
  let l := threads s in
  exec (Call t MReadLock) s = Some (State None None c b (<[t := RL39]> l)) /\
  exec (Step t) (State None None c b (<[t := RL39]> l))
    = Some (State (Some t) None c b (<[t := RL40]> l)) /\
  exec (Step t) (State (Some t) None c b (<[t := RL40]> l))
    = Some (State (Some t) (Some t) c b (<[t := RL41]> l)) /\
  exec (Step t) (State (Some t) (Some t) c b (<[t := RL41]> l))
    = Some (State (Some t) (Some t) (IntT.wrap_int (c + 1)) b (<[t := RL42]> l)) /\
  exec (Step t) (State (Some t) (Some t) (IntT.wrap_int (c + 1)) b (<[t := RL42]> l))
    = Some (State (Some t) None (IntT.wrap_int (c + 1)) b (<[t := RL43]> l)) /\
  exec (Step t) (State (Some t) None (IntT.wrap_int (c + 1)) b (<[t := RL43]> l))
    = Some (State None None (IntT.wrap_int (c + 1)) b (<[t := Reading]> l)) /\
  run (Call t MReadLock :: repeat (Step t) 5) s
    = Some (State None None (IntT.wrap_int (c + 1)) b (<[t := Reading]> l)).
Proof.
  intros Hp Hw Hr c b l. subst c b l.
  destruct s as [wm rm c b l]. cbn [WriteMutex ReadMutex ReadCounter
    IsCondVarWaiting threads] in *. subst wm rm.
  assert (Hlt : (t < length l)%nat) by (apply lookup_lt_Some in Hp; exact Hp).
  assert (E0 : exec (Call t MReadLock) (State None None c b l)
               = Some (State None None c b (<[t := RL39]> l))).
  { cbn [exec threads]. rewrite Hp. reflexivity. }
  assert (E : forall p q wm rm c' wm' rm' c'',
             step_at t p (State wm rm c' b (<[t := p]> l))
               = Some (set_pc t q (State wm' rm' c'' b (<[t := p]> l))) ->
             exec (Step t) (State wm rm c' b (<[t := p]> l))
               = Some (State wm' rm' c'' b (<[t := q]> l))).
  { intros p q wm rm c' wm' rm' c'' H. rewrite step_from by exact Hlt.
    rewrite H. unfold set_pc. cbn [WriteMutex ReadMutex ReadCounter
      IsCondVarWaiting threads]. rewrite list_insert_insert_eq. reflexivity. }
  assert (E1 := E RL39 RL40 None None c (Some t) None c eq_refl).
  assert (E2 := E RL40 RL41 (Some t) None c (Some t) (Some t) c eq_refl).
  assert (E3 := E RL41 RL42 (Some t) (Some t) c (Some t) (Some t)
                  (IntT.wrap_int (c + 1)) eq_refl).
  assert (E4 := E RL42 RL43 (Some t) (Some t) (IntT.wrap_int (c + 1))
                  (Some t) None (IntT.wrap_int (c + 1)) eq_refl).
  assert (E5 := E RL43 Reading (Some t) None (IntT.wrap_int (c + 1))
                  None None (IntT.wrap_int (c + 1)) eq_refl).
  repeat (split; [assumption |]).
  cbn [repeat run]. rewrite E0, E1, E2, E3, E4, E5. reflexivity.
Qed.

(** C6.  [ReadLock] takes the writer gate only for the increment.  A call
    that finds both mutexes free runs, in this order: lock [WriteMutex], lock
    [ReadMutex], add 1 to [ReadCounter], unlock [ReadMutex], unlock
    [WriteMutex].  In every reachable state a thread inside [ReadLock] past
    line 39 owns [WriteMutex], it owns [ReadMutex] around the increment, and
    a thread whose [ReadLock] has returned owns neither.  While a writer
    owns the gate (from line 70 until its [WriteUnlock] has run line 82,
    waiting for the readers to drain or writing), no thread is inside
    [ReadLock] past line 39 and a thread at line 39 cannot move. *)
Theorem ReadLock_takes_gate_transiently (n : nat) (s : state) (t : tid) :
  reachable n s ->
  (threads s !! t = Some Idle ->
   WriteMutex s = None -> ReadMutex s = None ->
   let c := ReadCounter s in
   let b := IsCondVarWaiting s in
   let l := threads s in
   exec (Call t MReadLock) s = Some (State None None c b (<[t := RL39]> l)) /\
   exec (Step t) (State None None c b (<[t := RL39]> l))
     = Some (State (Some t) None c b (<[t := RL40]> l)) /\
   exec (Step t) (State (Some t) None c b (<[t := RL40]> l))
     = Some (State (Some t) (Some t) c b (<[t := RL41]> l)) /\
   exec (Step t) (State (Some t) (Some t) c b (<[t := RL41]> l))
     = Some (State (Some t) (Some t) (IntT.wrap_int (c + 1)) b (<[t := RL42]> l)) /\
   exec (Step t) (State (Some t) (Some t) (IntT.wrap_int (c + 1)) b (<[t := RL42]> l))
     = Some (State (Some t) None (IntT.wrap_int (c + 1)) b (<[t := RL43]> l)) /\
   exec (Step t) (State (Some t) None (IntT.wrap_int (c + 1)) b (<[t := RL43]> l))
     = Some (State None None (IntT.wrap_int (c + 1)) b (<[t := Reading]> l)) /\
   run (Call t MReadLock :: repeat (Step t) 5) s
     = Some (State None None (IntT.wrap_int (c + 1)) b (<[t := Reading]> l)) /\
   (c < IntT.INT_MAX -> IntT.wrap_int (c + 1) = c + 1)) /\
  (past_gate (pc_at s t) = true -> WriteMutex s = Some t) /\
  (pc_at s t = RL41 \/ pc_at s t = RL42 -> ReadMutex s = Some t) /\
  (pc_at s t = Reading -> WriteMutex s <> Some t /\ ReadMutex s <> Some t) /\
  (forall w, writer_section (pc_at s w) = true ->
     WriteMutex s = Some w /\
     past_gate (pc_at s t) = false /\
     (pc_at s t = RL39 -> exec (Step t) s = None)).
Proof.
  intros Hs. pose proof (reachable_inv _ _ _ Hs) as Hinv.
  pose proof (inv_W s Hinv t) as HWt. pose proof (inv_R s Hinv t) as HRt.
  split; [| split; [| split; [| split]]].
  - intros Hp Hw Hr c b l.
    destruct (ReadLock_alone s t Hp Hw Hr) as (E0 & E1 & E2 & E3 & E4 & E5 & R).
    repeat (split; [assumption |]).
    intros Hc. apply int_wrap_small. pose proof (inv_range s Hinv) as Hrg.
    subst c. unfold IntT.is_int, IntT.INT_MIN, IntT.INT_MAX in *. lia.
  - intros H. apply HWt. apply past_gate_owns. exact H.
  - intros H. apply HRt. destruct H as [-> | ->]; reflexivity.
  - intros H. rewrite H in HWt, HRt. cbn in HWt, HRt.
    split; intros E; [apply HWt in E | apply HRt in E]; discriminate.
  - intros w Hw.
    pose proof (proj1 (inv_W s Hinv w) (writer_section_owns _ Hw)) as HWw.
    split; [exact HWw |]. split.
    + destruct (past_gate (pc_at s t)) eqn:Hg; [| reflexivity].
      pose proof (proj1 HWt (past_gate_owns _ Hg)) as E.
      assert (t = w) as -> by congruence.
      destruct (pc_at s w); discriminate.
    + intros H39. apply lookup_of_pc_in in H39; [| discriminate].
      cbn [exec]. rewrite H39. cbn [step_at]. rewrite HWw. reflexivity.
Qed.

(** *** The theorems at concrete states *)

Lemma draining_state_reachable : reachable 2 draining_state.
Proof.
  apply (run_reachable 2 draining_schedule (init 2)); [apply reach_init |].
  reflexivity.
Qed.

Lemma no_lost_wakeup_witness :
  (IsCondVarWaiting draining_state = true /\
   WriteMutex draining_state = Some 1%nat) /\
  (0 < ReadCounter draining_state \/
   ReadCounter draining_state = 0 /\
   exists r,
     ReadMutex draining_state = Some r /\
     notifying (pc_at draining_state r) = true /\
     (pc_at draining_state 1%nat = WL74_blocked ->
      exists (k : nat) (s' : state),
        (k <= 3)%nat /\ run (repeat (Step r) k) draining_state = Some s' /\
        pc_at s' 1%nat = WL76)).
Proof.
  split.
  - apply (no_lost_wakeup 2 draining_state 1%nat);
      [exact draining_state_reachable | reflexivity].
  - apply (no_lost_wakeup 2 draining_state 1%nat);
      [exact draining_state_reachable | reflexivity].
Defined.

Lemma ReadLock_takes_gate_transiently_witness :
  run (Call 0%nat MReadLock :: repeat (Step 0%nat) 5) (init 1)
  = Some (State None None (IntT.wrap_int (0 + 1)) false [Reading]).
Proof.
  apply (ReadLock_takes_gate_transiently 1 (init 1) 0%nat);
    [apply reach_init | reflexivity | reflexivity | reflexivity].
Defined.

End BaseFacts.

(** ** Properties of the wrapper on top of the lock *)

Module LayersFacts.
Import Recursive Base Layers RecursiveFacts BaseFacts.

Lemma perform_all_app (t : tid) (a b : list base_call) :
  forall s,
    perform_all t (a ++ b) s =
    match perform_all t a s with
    | Some s' => perform_all t b s'
    | None => None
    end.
Proof.
  induction a as [| c a IH]; intros s; [reflexivity |].
  cbn [app perform_all]. destruct (perform t s c); [apply IH | reflexivity].
Qed.

Lemma trace_cons (o : op) (ops : list op) (st : thread_locals) :
  trace (o :: ops) st =
  calls_of (method o) st ++ trace ops (state_after (method o) st).
Proof. reflexivity. Qed.

(** The calls of one well-nested operation run to their end on the lock. *)
Lemma op_on_lock (open open' : list kind) (th : thread) (o : op) :
  models open th ->
  bracket open o = Some open' ->
  Z.of_nat (length open) < SizeT.modulus ->
  Z.of_nat (length open') < SizeT.modulus ->
  perform_all 0%nat (calls_of (method o) (locals th)) (lock_of (held th))
  = Some (lock_of (held (do_op th o))).
Proof.
  intros Hm Hb Hlen0 Hlen.
  pose proof (do_op_models open open' th o Hm Hb Hlen0 Hlen) as [_ Hh'].
  rewrite Hh'. destruct Hm as [Hl Hh]. rewrite Hh, Hl. clear Hh' Hh Hl th.
  unfold bracket in Hb.
  destruct o; cbn [nesting method] in *;
    [ | destruct open as [| [] open0]; try discriminate
      | | destruct open as [| [] open0]; try discriminate ];
    injection Hb as <-; cbn [depths length] in *;
    match goal with
    | |- context [depths ?l] =>
        pose proof (depths_bounds l) as Hd; destruct (depths l) as [r w]
    end;
    cbn [fst snd] in *; unfold_method; unfold hold_of, no_hold;
    case_tests; cbn [fst snd] in *; try lia;
    reflexivity.
Qed.

Lemma ops_on_lock (ops : list op) :
  forall (open final : list kind) (th : thread),
    models open th ->
    nesting open ops = Some final ->
    Z.of_nat (length open + length ops) < SizeT.modulus ->
    perform_all 0%nat (trace ops (locals th)) (lock_of (held th))
    = Some (lock_of (held (run_ops ops th))).
Proof.
  induction ops as [| o ops IH]; intros open final th Hm Hn Hlen.
  - reflexivity.
  - rewrite nesting_cons in Hn.
    destruct (bracket open o) as [open' |] eqn:Hb; [| discriminate].
    pose proof (bracket_length _ _ _ Hb) as Hle.
    cbn [length] in Hlen.
    assert (H0 : Z.of_nat (length open) < SizeT.modulus) by lia.
    assert (H1 : Z.of_nat (length open') < SizeT.modulus) by lia.
    rewrite trace_cons, perform_all_app.
    rewrite (op_on_lock open open' th o Hm Hb H0 H1).
    unfold run_ops. cbn [fold_left].
    apply (IH open' final (do_op th o)); [| exact Hn | lia].
    apply (do_op_models open); assumption.
Qed.

Lemma lock_of_reachable (h : hold) : reachable 1 (lock_of h).
Proof.
  unfold lock_of. destruct (held_exclusive h); [| destruct (held_shared h)].
  - apply (run_reachable 1 (Call 0%nat MWriteLock :: repeat (Step 0%nat) 4)
             (init 1)); [apply reach_init | reflexivity].
  - apply (run_reachable 1 (Call 0%nat MReadLock :: repeat (Step 0%nat) 5)
             (init 1)); [apply reach_init | reflexivity].
  - apply reach_init.
Qed.

(** X15.  The two layers together.  The calls that a well-nested sequence of
    wrapper operations makes on [Rwmx] respect the way the lock is meant to be
    used and, for a thread that runs alone, all return; after each operation
    the thread stands in the lock where the wrapper's depths say: it holds
    the lock in shared mode iff read depth > 0 and write depth = 0, in
    exclusive mode iff write depth > 0.  The count of the calls that have
    returned agrees with both. *)
Theorem balanced_runs_on_lock (ops : list op) (k : nat) :
  balanced ops = true ->
  Z.of_nat (length ops) < SizeT.modulus ->
  let th := run_ops (firstn k ops) fresh in
  exists s,
    perform_all 0%nat (trace (firstn k ops) clean) (init 1) = Some s /\
    reachable 1 s /\
    (holds_shared s 0%nat <->
       0 < LocalThreadReadLockCounter (locals th) /\
       LocalThreadWriteLockCounter (locals th) = 0) /\
    (holds_exclusive s 0%nat <->
       0 < LocalThreadWriteLockCounter (locals th)) /\
    (holds_shared s 0%nat <-> held_shared (held th) = true) /\
    (holds_exclusive s 0%nat <-> held_exclusive (held th) = true).
Proof.
  intros Hb Hlen th. unfold balanced in Hb.
  destruct (nesting [] ops) as [final |] eqn:Hn; [| discriminate].
  rewrite <- (firstn_skipn k ops) in Hn.
  destruct (nesting_prefix _ _ _ _ Hn) as [mid Hmid].
  assert (Hk : Z.of_nat (length (@nil kind) + length (firstn k ops))
               < SizeT.modulus).
  { change (length (@nil kind)) with 0%nat. rewrite length_take. lia. }
  assert (Hfresh : models [] fresh) by (split; reflexivity).
  pose proof (ops_on_lock (firstn k ops) [] mid fresh Hfresh Hmid Hk) as Hrun.
  pose proof (run_models (firstn k ops) [] mid fresh Hfresh Hmid Hk)
    as [Hloc Hheld].
  exists (lock_of (held th)). split; [exact Hrun |].
  split; [apply lock_of_reachable |].
  subst th. rewrite Hheld, Hloc. pose proof (depths_bounds mid) as Hd. clear - Hd.
  unfold hold_of, lock_of, held_shared, held_exclusive, holds_shared,
    holds_exclusive, no_hold.
  destruct (depths mid) as [r w].
  cbn [fst snd LocalThreadReadLockCounter LocalThreadWriteLockCounter] in *.
  destruct (Z.ltb_spec 0 w); [| destruct (Z.ltb_spec 0 r)];
    cbn; repeat split; intros; try reflexivity; try lia; try discriminate;
    repeat match goal with H : _ /\ _ |- _ => destruct H end; lia.
Qed.

End LayersFacts.

(** ** More properties of the lock and of the wrapper *)

Module UsageFacts.
Import Recursive Base Unguarded Layers Usage.
Import SizeTFacts RecursiveFacts BaseFacts LayersFacts.

(** *** Concrete states, and how they are reached *)

Lemma run_app (a b : list event) :
  forall s, run (a ++ b) s =
            match run a s with Some s1 => run b s1 | None => None end.
Proof.
  induction a as [| e a IH]; intros s; [reflexivity |].
  cbn [app run]. destruct (exec e s); [apply IH | reflexivity].
Qed.

Lemma run_reachable_by (ok : event -> bool) (n : nat) (evs : list event) :
  forall s s',
    forallb ok evs = true ->
    reachable_by ok n s -> run evs s = Some s' -> reachable_by ok n s'.
Proof.
  induction evs as [| e evs IH]; intros s s' Hok Hs Hrun.
  - cbn in Hrun. injection Hrun as <-. exact Hs.
  - cbn [forallb] in Hok. apply andb_prop in Hok as [He Hrest].
    cbn [run] in Hrun. destruct (exec e s) as [s1 |] eqn:Hex; [| discriminate].
    apply (IH s1 s' Hrest); [| exact Hrun].
    exact (reach_exec ok n s s1 e Hs He Hex).
Qed.

Lemma notifying_state_reachable : reachable 2 notifying_state.
Proof.
  apply (run_reachable 2 (draining_schedule ++ [Step 0%nat]) (init 2));
    [apply reach_init | reflexivity].
Qed.

Lemma one_reader_state_reachable : reachable 2 one_reader_state.
Proof.
  apply (run_reachable 2 (ReadLock_events 0) (init 2));
    [apply reach_init | reflexivity].
Qed.

Lemma leaving_ReadLock_state_reachable : reachable 2 leaving_ReadLock_state.
Proof.
  apply (run_reachable 2 (Call 0%nat MReadLock :: repeat (Step 0%nat) 4)
           (init 2)); [apply reach_init | reflexivity].
Qed.

Lemma one_writer_state_notified :
  reachable_by notified_only 2 one_writer_state.
Proof.
  apply (run_reachable_by notified_only 2
           (Call 0%nat MWriteLock :: repeat (Step 0%nat) 4) (init 2));
    [reflexivity | apply reach_init | reflexivity].
Qed.

Lemma two_threads_fit : Z.of_nat 2 <= IntT.INT_MAX.
Proof. unfold IntT.INT_MAX. lia. Qed.

(** *** Executions that keep the clients' protocol

    [exec] is [exec_any] restricted to the calls of the protocol, so the
    states reachable by [exec] are the states of the executions of the
    methods in which every call keeps the protocol. *)

Lemma exec_any_in_protocol (e : event) (s : state) :
  in_protocol e s = true -> exec_any e s = exec e s.
Proof.
  destruct e as [t m | t | t]; try reflexivity.
  cbn [in_protocol exec_any exec].
  destruct (threads s !! t) as [p |]; [| reflexivity].
  destruct m, p; cbn; try discriminate; reflexivity.
Qed.

Lemma exec_in_protocol (e : event) (s s' : state) :
  exec e s = Some s' -> in_protocol e s = true.
Proof.
  destruct e as [t m | t | t]; try reflexivity.
  cbn [in_protocol exec].
  destruct (threads s !! t) as [p |]; [| discriminate].
  destruct (call_at m p); [reflexivity | discriminate].
Qed.

Lemma protocol_run (evs : list event) :
  forall s s',
    run_any evs s = Some s' -> keeps_protocol evs s = true ->
    run evs s = Some s'.
Proof.
  induction evs as [| e evs IH]; intros s s' Hr Hk; [exact Hr |].
  cbn [run_any keeps_protocol run] in *.
  apply andb_prop in Hk as [He Hk].
  rewrite (exec_any_in_protocol e s He) in Hr, Hk.
  destruct (exec e s) as [s1 |]; [| discriminate].
  apply (IH s1 s' Hr Hk).
Qed.

Lemma protocol_reachable (ok : event -> bool) (n : nat) (evs : list event)
      (s : state) :
  forallb ok evs = true ->
  run_any evs (init n) = Some s ->
  keeps_protocol evs (init n) = true ->
  reachable_by ok n s.
Proof.
  intros Hok Hr Hk.
  apply (run_reachable_by ok n evs (init n) s Hok); [apply reach_init |].
  apply (protocol_run evs _ _ Hr Hk).
Qed.

Lemma all_events (evs : list event) : forallb any_event evs = true.
Proof. induction evs as [| e evs IH]; [reflexivity | exact IH]. Qed.

Lemma run_any_app (a b : list event) :
  forall s, run_any (a ++ b) s =
            match run_any a s with Some s1 => run_any b s1 | None => None end.
Proof.
  induction a as [| e a IH]; intros s; [reflexivity |].
  cbn [app run_any]. destruct (exec_any e s); [apply IH | reflexivity].
Qed.

Lemma keeps_protocol_app (a b : list event) :
  forall s s1,
    run_any a s = Some s1 ->
    keeps_protocol (a ++ b) s = keeps_protocol a s && keeps_protocol b s1.
Proof.
  induction a as [| e a IH]; intros s s1 Hr.
  - cbn in Hr. injection Hr as <-. reflexivity.
  - cbn [app run_any keeps_protocol] in *.
    destruct (exec_any e s) as [s2 |]; [| discriminate].
    rewrite (IH s2 s1 Hr). rewrite andb_assoc. reflexivity.
Qed.

(** Conversely, every state reachable by [exec] is the end of an execution
    of the methods that keeps the protocol. *)
Lemma reachable_protocol (ok : event -> bool) (n : nat) (s : state) :
  reachable_by ok n s ->
  exists evs,
    forallb ok evs = true /\
    run_any evs (init n) = Some s /\
    keeps_protocol evs (init n) = true.
Proof.
  induction 1 as [| s s' e _ (evs & Hok & Hr & Hk) He Hex].
  - exists []. repeat split.
  - pose proof (exec_in_protocol e s s' Hex) as Hp.
    exists (evs ++ [e]). split; [| split].
    + rewrite forallb_app, Hok. cbn. rewrite He. reflexivity.
    + rewrite run_any_app, Hr. cbn [run_any].
      rewrite (exec_any_in_protocol e s Hp), Hex. reflexivity.
    + rewrite (keeps_protocol_app evs [e] _ s Hr), Hk.
      cbn [keeps_protocol]. rewrite Hp.
      destruct (exec_any e s); reflexivity.
Qed.

(** The methods do not enforce the protocol.  [ReadUnlock] called by a
    thread that holds nothing returns as any other call and leaves
    [ReadCounter] at -1. *)
Lemma ReadUnlock_has_no_guard :
  run_any (ReadUnlock_events 0) (init 1)
  = Some (State None None (-1) false [Idle]) /\
  keeps_protocol (ReadUnlock_events 0) (init 1) = false.
Proof. split; reflexivity. Qed.

(** Such a call takes away the count of another thread's [ReadLock]: a
    writer then enters while that reader holds the lock, with no spurious
    wake-up. *)
Lemma stray_unlock_breaks_exclusion :
  let s := State (Some 0%nat) None 0 false [Writing; Reading] in
  run_any stray_unlock_schedule (init 2) = Some s /\
  forallb notified_only stray_unlock_schedule = true /\
  keeps_protocol stray_unlock_schedule (init 2) = false /\
  holds_exclusive s 0%nat /\ holds_shared s 1%nat.
Proof. repeat split. Qed.

(** *** What holds in every execution *)

(** X1.  Writers exclude each other in every execution, spurious wake-ups
    included: at most one thread is between line 70 of [WriteLock] and the
    end of [WriteUnlock], and it owns [WriteMutex].  In particular at most
    one thread at a time calls [Cv.wait], each with its own local mutex. *)
Theorem writers_serialized (n : nat) (s : state) (t u : tid) :
  reachable n s ->
  writer_section (pc_at s t) = true ->
  writer_section (pc_at s u) = true ->
  t = u /\ WriteMutex s = Some t.
Proof.
  intros Hs Ht Hu. pose proof (reachable_inv _ _ _ Hs) as Hinv.
  pose proof (proj1 (inv_W s Hinv t) (writer_section_owns _ Ht)) as Wt.
  pose proof (proj1 (inv_W s Hinv u) (writer_section_owns _ Hu)) as Wu.
  split; [congruence | exact Wt].
Qed.

Lemma writers_serialized_witness :
  1%nat = 1%nat /\ WriteMutex draining_state = Some 1%nat.
Proof.
  apply (writers_serialized 2 draining_state 1%nat 1%nat);
    [exact draining_state_reachable | reflexivity | reflexivity].
Defined.

Lemma exec_length (s s' : state) (e : event) :
  exec e s = Some s' -> length (threads s') = length (threads s).
Proof.
  intros H. destruct e as [t m | t | t]; cbn [exec] in H;
    destruct (threads s !! t) as [p |] eqn:Hp; try discriminate.
  - destruct (call_at m p); [| discriminate]. injection H as <-.
    cbn. apply length_insert.
  - destruct p; cbn [step_at] in H; try discriminate;
      try (destruct (WriteMutex s); [discriminate |]);
      try (destruct (ReadMutex s); [discriminate |]);
      injection H as <-; cbn; rewrite length_insert, ?length_fmap; reflexivity.
  - destruct p; try discriminate. injection H as <-. cbn. apply length_insert.
Qed.

Lemma reachable_length ok n s : reachable_by ok n s -> length (threads s) = n.
Proof.
  induction 1 as [| s s' e _ IH _ Hex].
  - cbn. apply repeat_length.
  - rewrite (exec_length _ _ _ Hex). exact IH.
Qed.

(** X3.  In every execution of the methods in which the clients keep the
    protocol (a lock method is called by a thread that holds nothing,
    [ReadUnlock] by a thread whose own [ReadLock] was the last to return,
    [WriteUnlock] by one whose own [WriteLock] was), with no more threads
    than an [int] counts, [ReadCounter] is the number of threads between the
    [fetch_add] of line 41 and the [fetch_sub] of line 50: it is not
    negative and not above the number of threads.  Without the protocol it
    can be -1 ([ReadUnlock_has_no_guard]). *)
Theorem counter_counts_readers (n : nat) (evs : list event) (s : state) :
  Z.of_nat n <= IntT.INT_MAX ->
  run_any evs (init n) = Some s ->
  keeps_protocol evs (init n) = true ->
  ReadCounter s = count_readers (threads s) /\
  0 <= ReadCounter s <= Z.of_nat n.
Proof.
  intros Hn Hr Hk.
  pose proof (protocol_reachable any_event n evs s (all_events evs) Hr Hk)
    as Hs.
  pose proof (reachable_counter_exact _ _ _ Hn Hs) as [Hc _].
  pose proof (count_bounds (threads s)) as Hb.
  rewrite (reachable_length _ _ _ Hs) in Hb.
  split; [exact Hc | lia].
Qed.

Lemma counter_counts_readers_witness :
  ReadCounter one_reader_state = count_readers (threads one_reader_state) /\
  0 <= ReadCounter one_reader_state <= Z.of_nat 2.
Proof.
  apply (counter_counts_readers 2 (ReadLock_events 0) one_reader_state);
    [exact two_threads_fit | reflexivity | reflexivity].
Defined.

(** X11.  The two [std::mutex] are used as they have to be: a thread about to
    run an [unlock()] (lines 42, 43, 55, 82) owns that mutex, and a thread
    about to run a [lock()] (lines 39, 40, 49, 70) does not own it yet. *)
Theorem mutex_discipline (n : nat) (s : state) (t : tid) :
  reachable n s ->
  (pc_at s t = RL43 \/ pc_at s t = WU82 -> WriteMutex s = Some t) /\
  (pc_at s t = RL42 \/ pc_at s t = RU55 -> ReadMutex s = Some t) /\
  (pc_at s t = RL39 \/ pc_at s t = WL70 -> WriteMutex s <> Some t) /\
  (pc_at s t = RL40 \/ pc_at s t = RU49 -> ReadMutex s <> Some t).
Proof.
  intros Hs. pose proof (reachable_inv _ _ _ Hs) as Hinv.
  pose proof (inv_W s Hinv t) as HW. pose proof (inv_R s Hinv t) as HR.
  repeat split; intros [H | H]; rewrite H in HW, HR; cbn in HW, HR;
    try (apply HW; reflexivity); try (apply HR; reflexivity);
    intros E; [apply HW in E | apply HW in E | apply HR in E | apply HR in E];
    discriminate.
Qed.

Lemma mutex_discipline_witness :
  WriteMutex leaving_ReadLock_state = Some 0%nat.
Proof.
  apply (mutex_discipline 2 leaving_ReadLock_state 0%nat);
    [exact leaving_ReadLock_state_reachable | left; reflexivity].
Defined.

Lemma count_zero_none (l : list pc) (t : tid) (p : pc) :
  count_readers l = 0 -> l !! t = Some p -> counted p = false.
Proof.
  intros H0 Hl. destruct (counted p) eqn:Hc; [| reflexivity].
  pose proof (count_pos l t p Hl Hc). lia.
Qed.


(** X12.  Where the clients keep the protocol (as in X3) and the threads are
    no more than an [int] counts, [Cv.notify_all()] is called only when the
    readers are gone: a thread in the loop of line 53 owns [ReadMutex],
    [ReadCounter] is 0 and no thread holds the lock in shared mode. *)
Theorem notify_only_when_drained (n : nat) (evs : list event) (s : state)
        (r : tid) :
  Z.of_nat n <= IntT.INT_MAX ->
  run_any evs (init n) = Some s ->
  keeps_protocol evs (init n) = true ->
  in_notify_loop (pc_at s r) = true ->
  ReadCounter s = 0 /\ ReadMutex s = Some r /\
  forall t, ~ holds_shared s t.
Proof.
  intros Hn Hrun Hk Hr.
  pose proof (protocol_reachable any_event n evs s (all_events evs) Hrun Hk)
    as Hs.
  pose proof (reachable_inv _ _ _ Hs) as Hinv.
  pose proof (reachable_counter_exact _ _ _ Hn Hs) as [Hc _].
  pose proof (inv_loop s Hinv r Hr) as Hz.
  split; [exact Hz |]. split.
  - apply (inv_R s Hinv r). apply loop_owns. exact Hr.
  - intros t Ht. unfold holds_shared in Ht.
    apply lookup_of_pc_in in Ht; [| discriminate].
    rewrite Hz in Hc. symmetry in Hc.
    pose proof (count_zero_none _ _ _ Hc Ht). discriminate.
Qed.

Lemma notify_only_when_drained_witness :
  ReadCounter notifying_state = 0 /\
  ReadMutex notifying_state = Some 0%nat /\
  forall t, ~ holds_shared notifying_state t.
Proof.
  apply (notify_only_when_drained 2 (draining_schedule ++ [Step 0%nat])
           notifying_state 0%nat);
    [exact two_threads_fit | reflexivity | reflexivity | reflexivity].
Defined.

(** X13.  [IsCondVarWaiting] is set exactly while some writer is between the
    store of line 72 and the store of line 76; so the loop of line 53 never
    notifies when no writer is inside [WriteLock]. *)
Theorem flag_tracks_writer (n : nat) (s : state) :
  reachable n s ->
  (IsCondVarWaiting s = true <-> exists w, flag_raised (pc_at s w) = true).
Proof.
  intros Hs. pose proof (reachable_inv _ _ _ Hs) as Hinv.
  rewrite (inv_flag s Hinv). split.
  - destruct (WriteMutex s) as [w |]; [| discriminate].
    intros H. exists w. exact H.
  - intros [w Hw].
    assert (Ho : owns_WriteMutex (pc_at s w) = true)
      by (destruct (pc_at s w); try discriminate; reflexivity).
    rewrite (proj1 (inv_W s Hinv w) Ho). exact Hw.
Qed.

Lemma flag_tracks_writer_witness :
  IsCondVarWaiting draining_state = true <->
  exists w, flag_raised (pc_at draining_state w) = true.
Proof.
  apply (flag_tracks_writer 2 draining_state).
  exact draining_state_reachable.
Defined.

(** X8.  Writer preference, step by step.  While a writer owns the gate, no
    event makes a thread a reader that was not one before, and [ReadCounter]
    stays or is decremented by a [ReadUnlock]. *)
Theorem writer_keeps_readers_out (n : nat) (s s' : state) (e : event) (w t : tid) :
  reachable n s ->
  writer_section (pc_at s w) = true ->
  exec e s = Some s' ->
  (pc_at s' t = Reading -> pc_at s t = Reading) /\
  (ReadCounter s' = ReadCounter s \/
   ReadCounter s' = IntT.wrap_int (ReadCounter s - 1)).
Proof.
  intros Hs Hw Hexec. pose proof (reachable_inv _ _ _ Hs) as Hinv.
  pose proof (proj1 (inv_W s Hinv w) (writer_section_owns _ Hw)) as HWw.
  destruct e as [u m | u | u]; cbn [exec] in Hexec;
    destruct (threads s !! u) as [p |] eqn:Hp; try discriminate.
  - destruct (call_at m p) as [q |] eqn:Hq; [| discriminate].
    injection Hexec as <-. split; [| left; reflexivity].
    unfold pc_at, set_pc. cbn [threads]. rewrite (pc_in_insert _ _ _ _ _ Hp).
    destruct (Nat.eqb_spec t u) as [-> | _]; [| tauto].
    destruct m, p; try discriminate; injection Hq as <-; discriminate.
  - pose proof (inv_W s Hinv u) as HWu.
    unfold pc_at in HWu, Hw. rewrite (pc_in_lookup _ _ _ Hp) in HWu.
    assert (Hown : owns_WriteMutex p = true -> past_gate p = true -> False).
    { intros Ho Hg. assert (u = w) as -> by (apply HWu in Ho; congruence).
      rewrite (pc_in_lookup _ _ _ Hp) in Hw. destruct p; discriminate. }
    destruct p; cbn [step_at] in Hexec; try discriminate;
      try (destruct (WriteMutex s); [discriminate |]);
      try (destruct (ReadMutex s); [discriminate |]);
      injection Hexec as <-;
      try (exfalso; apply Hown; reflexivity);
      (split; [| cbn; auto]);
      unfold pc_at; cbn [set_pc set_WriteMutex set_ReadMutex set_ReadCounter
                         set_IsCondVarWaiting notify_all threads];
      rewrite ?(pc_in_insert _ _ _ _ _ Hp),
              ?(pc_in_insert _ _ _ _ _ (lookup_wake _ _ _ Hp)), ?pc_in_wake;
      destruct (Nat.eqb_spec t u) as [-> | _];
      try (destruct (ReadCounter s =? 0)); try (destruct (IsCondVarWaiting s));
      try (destruct (0 <? ReadCounter s));
      try discriminate; try tauto.
    all: destruct (pc_in (threads s) t); cbn; try discriminate; tauto.
  - destruct p; try discriminate. injection Hexec as <-.
    split; [| left; reflexivity].
    unfold pc_at, set_pc. cbn [threads]. rewrite (pc_in_insert _ _ _ _ _ Hp).
    destruct (Nat.eqb_spec t u) as [-> | _]; [discriminate | tauto].
Qed.

Lemma writer_keeps_readers_out_witness :
  (pc_at notifying_state 0%nat = Reading ->
   pc_at draining_state 0%nat = Reading) /\
  (ReadCounter notifying_state = ReadCounter draining_state \/
   ReadCounter notifying_state
   = IntT.wrap_int (ReadCounter draining_state - 1)).
Proof.
  apply (writer_keeps_readers_out 2 draining_state notifying_state
           (Step 0%nat) 1%nat 0%nat);
    [exact draining_state_reachable | reflexivity | reflexivity].
Defined.

(** *** The lock does not get stuck *)










(** X10.  Nothing is left behind.  Where the clients keep the protocol (as
    in X3) and the threads are no more than an [int] counts: when every
    thread is back between calls and holds nothing, the lock is exactly as
    the constructor made it: both mutexes free, [ReadCounter] 0,
    [IsCondVarWaiting] false. *)
Theorem idle_lock_is_initial (n : nat) (evs : list event) (s : state) :
  Z.of_nat n <= IntT.INT_MAX ->
  run_any evs (init n) = Some s ->
  keeps_protocol evs (init n) = true ->
  (forall t, pc_at s t = Idle) ->
  s = init n.
Proof.
  intros Hn Hrun Hk Hidle.
  pose proof (protocol_reachable any_event n evs s (all_events evs) Hrun Hk)
    as Hs.
  pose proof (reachable_inv _ _ _ Hs) as Hinv.
  pose proof (reachable_counter_exact _ _ _ Hn Hs) as [Hc _].
  pose proof (reachable_length _ _ _ Hs) as Hlen.
  assert (Hth : threads s = repeat Idle n).
  { apply list_eq. intros i.
    destruct (threads s !! i) as [p |] eqn:Hp.
    - pose proof (Hidle i) as Hi. unfold pc_at, pc_in in Hi. rewrite Hp in Hi.
      subst p. symmetry. apply lookup_lt_Some in Hp. rewrite Hlen in Hp.
      clear -Hp. revert i Hp. induction n as [| n IH]; intros i Hp; [lia |].
      destruct i as [| i]; [reflexivity |]. cbn. apply IH. lia.
    - symmetry. apply lookup_ge_None. apply lookup_ge_None in Hp.
      rewrite repeat_length. lia. }
  assert (HW : WriteMutex s = None).
  { destruct (WriteMutex s) as [w |] eqn:Hw; [| reflexivity].
    pose proof (proj2 (inv_W s Hinv w) Hw) as Ho. rewrite (Hidle w) in Ho.
    discriminate. }
  assert (HR : ReadMutex s = None).
  { destruct (ReadMutex s) as [r |] eqn:Hr; [| reflexivity].
    pose proof (proj2 (inv_R s Hinv r) Hr) as Ho. rewrite (Hidle r) in Ho.
    discriminate. }
  pose proof (inv_flag s Hinv) as Hf. rewrite HW in Hf.
  rewrite Hth, count_init in Hc.
  destruct s as [wm rm c b l].
  cbn [WriteMutex ReadMutex ReadCounter IsCondVarWaiting threads] in *.
  unfold init. congruence.
Qed.

(** Thread 0 has taken the lock for reading and given it back. *)
Lemma idle_lock_is_initial_witness :
  State None None 0 false [Idle; Idle] = init 2.
Proof.
  apply (idle_lock_is_initial 2
           (ReadLock_events 0 ++ Call 0%nat MReadUnlock :: repeat (Step 0%nat) 5)
           (State None None 0 false [Idle; Idle]));
    [exact two_threads_fit | reflexivity | reflexivity |].
  intros [| [| t]]; reflexivity.
Defined.

(** *** Readers together, and calls that run alone *)

Lemma all_ReadLock_notified (k : nat) :
  forallb notified_only (all_ReadLock k) = true.
Proof.
  induction k as [| k IH]; [reflexivity |].
  cbn [all_ReadLock]. rewrite forallb_app, IH. reflexivity.
Qed.

Lemma all_ReadLock_run (k : nat) :
  forall m : nat,
    Z.of_nat k <= IntT.INT_MAX ->
    run (all_ReadLock k) (init (k + m)) =
    Some (State None None (Z.of_nat k) false
                (repeat Reading k ++ repeat Idle m)).
Proof.
  induction k as [| k IH]; intros m Hk.
  - reflexivity.
  - cbn [all_ReadLock]. rewrite run_app.
    replace (S k + m)%nat with (k + S m)%nat by lia.
    rewrite (IH (S m)) by lia.
    set (l := repeat Reading k ++ repeat Idle (S m)).
    assert (Hl : l !! k = Some Idle).
    { subst l. rewrite lookup_app_r by (rewrite repeat_length; lia).
      rewrite repeat_length, Nat.sub_diag. reflexivity. }
    destruct (ReadLock_alone (State None None (Z.of_nat k) false l) k
                Hl eq_refl eq_refl) as (_ & _ & _ & _ & _ & _ & Hrun).
    unfold ReadLock_events. rewrite Hrun.
    cbn [ReadCounter IsCondVarWaiting threads].
    rewrite int_wrap_small
      by (clear -Hk; unfold IntT.is_int, IntT.INT_MIN, IntT.INT_MAX in *; lia).
    f_equal. f_equal; [lia |].
    subst l. rewrite insert_app_r_alt by (rewrite repeat_length; lia).
    rewrite repeat_length, Nat.sub_diag. cbn [repeat].
    change (<[0%nat := Reading]> (Idle :: repeat Idle m))
      with ([Reading] ++ repeat Idle m).
    rewrite app_assoc. f_equal.
    rewrite <- repeat_cons. reflexivity.
Qed.

(** X4.  Readers do not exclude each other: any number [n] of threads (that
    an [int] counts) can hold the lock in shared mode at once.  After each
    of them has run [ReadLock], all [n] hold it, [ReadCounter] is [n] and
    both mutexes are free. *)
Theorem readers_share (n : nat) :
  Z.of_nat n <= IntT.INT_MAX ->
  exists s,
    run (all_ReadLock n) (init n) = Some s /\
    reachable_by notified_only n s /\
    (forall t, (t < n)%nat -> holds_shared s t) /\
    ReadCounter s = Z.of_nat n /\
    WriteMutex s = None /\ ReadMutex s = None.
Proof.
  intros Hn.
  pose proof (all_ReadLock_run n 0 Hn) as Hrun.
  rewrite Nat.add_0_r in Hrun. cbn [repeat] in Hrun. rewrite app_nil_r in Hrun.
  eexists. split; [exact Hrun |]. split; [| split; [| repeat split]].
  - apply (run_reachable_by notified_only n (all_ReadLock n) (init n));
      [apply all_ReadLock_notified | apply reach_init | exact Hrun].
  - intros t Ht. unfold holds_shared, pc_at, pc_in. cbn [threads].
    destruct (repeat Reading n !! t) as [p |] eqn:Hp.
    + apply list_elem_of_lookup_2 in Hp. apply list_elem_of_In in Hp.
      apply repeat_spec in Hp. exact Hp.
    + apply lookup_ge_None in Hp. rewrite repeat_length in Hp. lia.
Qed.

Lemma readers_share_witness :
  exists s,
    run (all_ReadLock 3) (init 3) = Some s /\
    reachable_by notified_only 3 s /\
    (forall t, (t < 3)%nat -> holds_shared s t) /\
    ReadCounter s = Z.of_nat 3 /\
    WriteMutex s = None /\ ReadMutex s = None.
Proof.
  apply (readers_share 3). unfold IntT.INT_MAX. lia.
Defined.

(** One line of a call, for the thread whose program point was just set. *)
Lemma complete_line (f : nat) (t : tid) (p : pc) (l : list pc) wm rm c b :
  (t < length l)%nat ->
  complete (S f) t (State wm rm c b (<[t := p]> l)) =
  match p with
  | Idle | Reading | Writing => Some (State wm rm c b (<[t := p]> l))
  | _ =>
      match step_at t p (State wm rm c b (<[t := p]> l)) with
      | Some s' => complete f t s'
      | None => None
      end
  end.
Proof.
  intros Hlt. cbn [complete]. unfold pc_at, pc_in. cbn [threads].
  rewrite list_lookup_insert_eq by exact Hlt.
  destruct p; try reflexivity; rewrite step_from by exact Hlt; reflexivity.
Qed.

Lemma perform_call (t : tid) (s : state) (c : base_call) (p q : pc) :
  threads s !! t = Some p ->
  call_at (lock_method_of c) p = Some q ->
  perform t s c = complete 8 t (set_pc t q s).
Proof.
  intros Hp Hq. unfold perform. cbn [exec]. rewrite Hp, Hq. reflexivity.
Qed.

Ltac run_line Hlt :=
  rewrite complete_line by exact Hlt;
  cbn [step_at];
  unfold set_pc, set_WriteMutex, set_ReadMutex, set_ReadCounter,
    set_IsCondVarWaiting;
  cbn [WriteMutex ReadMutex ReadCounter IsCondVarWaiting threads];
  rewrite ?list_insert_insert_eq.

Lemma int_incr_decr (c : Z) :
  IntT.is_int c -> IntT.wrap_int (IntT.wrap_int (c + 1) - 1) = c.
Proof.
  unfold IntT.is_int, IntT.INT_MIN, IntT.INT_MAX. intros H.
  destruct (Z.eq_dec c (2 ^ 31 - 1)) as [-> | Hne]; [reflexivity |].
  unfold IntT.wrap_int.
  rewrite (Z.mod_small (c + 1 + 2 ^ 31)) by lia.
  replace (c + 1 + 2 ^ 31 - 2 ^ 31 - 1 + 2 ^ 31) with (c + 2 ^ 31) by lia.
  rewrite Z.mod_small by lia. lia.
Qed.

(** X5.  [ReadLock()] then [ReadUnlock()], run by a thread alone from a
    reachable state with both mutexes free, both return and leave the lock
    exactly as it was; in between the thread holds the lock in shared mode
    and [ReadCounter] is one more.  [ReadUnlock] takes the path through the
    test of line 53 when it was the last reader, and skips it otherwise. *)
Theorem ReadLock_ReadUnlock_round_trip (n : nat) (s : state) (t : tid) :
  reachable n s ->
  threads s !! t = Some Idle ->
  WriteMutex s = None -> ReadMutex s = None ->
  exists s1,
    perform t s Rwmx_ReadLock = Some s1 /\
    holds_shared s1 t /\
    ReadCounter s1 = IntT.wrap_int (ReadCounter s + 1) /\
    perform t s1 Rwmx_ReadUnlock = Some s.
Proof.
  intros Hs Hp HW HR. pose proof (reachable_inv _ _ _ Hs) as Hinv.
  pose proof (inv_flag s Hinv) as Hf. rewrite HW in Hf.
  pose proof (inv_range s Hinv) as Hrg.
  destruct s as [wm rm c b l].
  cbn [WriteMutex ReadMutex ReadCounter IsCondVarWaiting threads] in *.
  subst wm rm b.
  assert (Hlt : (t < length l)%nat) by (apply lookup_lt_Some in Hp; exact Hp).
  exists (State None None (IntT.wrap_int (c + 1)) false (<[t := Reading]> l)).
  split; [| split; [| split]].
  - rewrite (perform_call t (State None None c false l) Rwmx_ReadLock
               Idle RL39 Hp eq_refl).
    unfold set_pc. cbn [WriteMutex ReadMutex ReadCounter IsCondVarWaiting threads].
    do 6 run_line Hlt. reflexivity.
  - unfold holds_shared, pc_at, pc_in. cbn [threads].
    rewrite list_lookup_insert_eq by exact Hlt. reflexivity.
  - reflexivity.
  - assert (Hp1 : <[t := Reading]> l !! t = Some Reading)
      by (apply list_lookup_insert_eq; exact Hlt).
    rewrite (perform_call t (State None None (IntT.wrap_int (c + 1)) false
                                 (<[t := Reading]> l))
               Rwmx_ReadUnlock Reading RU49 Hp1 eq_refl).
    unfold set_pc. cbn [WriteMutex ReadMutex ReadCounter IsCondVarWaiting threads].
    rewrite list_insert_insert_eq.
    pose proof (int_incr_decr c Hrg) as Hback.
    do 3 run_line Hlt. rewrite Hback.
    assert (Hid : <[t := Idle]> l = l) by (apply list_insert_id; exact Hp).
    destruct (c =? 0); repeat run_line Hlt; rewrite Hid; reflexivity.
Qed.

Lemma ReadLock_ReadUnlock_round_trip_witness :
  exists s1,
    perform 0%nat (init 1) Rwmx_ReadLock = Some s1 /\
    holds_shared s1 0%nat /\
    ReadCounter s1 = IntT.wrap_int (ReadCounter (init 1) + 1) /\
    perform 0%nat s1 Rwmx_ReadUnlock = Some (init 1).
Proof.
  apply (ReadLock_ReadUnlock_round_trip 1 (init 1) 0%nat);
    [apply reach_init | reflexivity | reflexivity | reflexivity].
Defined.

(** X6.  [WriteLock()] then [WriteUnlock()], run by a thread alone from a
    reachable state where [WriteMutex] is free and [ReadCounter] is not
    positive, both return and leave the lock exactly as it was; in between
    the thread holds the lock in exclusive mode and owns [WriteMutex].
    [ReadMutex] is not needed. *)
Theorem WriteLock_WriteUnlock_round_trip (n : nat) (s : state) (t : tid) :
  reachable n s ->
  threads s !! t = Some Idle ->
  WriteMutex s = None ->
  ReadCounter s <= 0 ->
  exists s1,
    perform t s Rwmx_WriteLock = Some s1 /\
    holds_exclusive s1 t /\
    WriteMutex s1 = Some t /\
    perform t s1 Rwmx_WriteUnlock = Some s.
Proof.
  intros Hs Hp HW Hc. pose proof (reachable_inv _ _ _ Hs) as Hinv.
  pose proof (inv_flag s Hinv) as Hf. rewrite HW in Hf.
  destruct s as [wm rm c b l].
  cbn [WriteMutex ReadMutex ReadCounter IsCondVarWaiting threads] in *.
  subst wm b.
  assert (Hlt : (t < length l)%nat) by (apply lookup_lt_Some in Hp; exact Hp).
  exists (State (Some t) rm c false (<[t := Writing]> l)).
  split; [| split; [| split]].
  - rewrite (perform_call t (State None rm c false l) Rwmx_WriteLock
               Idle WL70 Hp eq_refl).
    unfold set_pc. cbn [WriteMutex ReadMutex ReadCounter IsCondVarWaiting threads].
    do 3 run_line Hlt.
    destruct (Z.ltb_spec 0 c) as [Hpos | _]; [lia |].
    do 2 run_line Hlt. reflexivity.
  - unfold holds_exclusive, pc_at, pc_in. cbn [threads].
    rewrite list_lookup_insert_eq by exact Hlt. reflexivity.
  - reflexivity.
  - assert (Hp1 : <[t := Writing]> l !! t = Some Writing)
      by (apply list_lookup_insert_eq; exact Hlt).
    rewrite (perform_call t (State (Some t) rm c false (<[t := Writing]> l))
               Rwmx_WriteUnlock Writing WU82 Hp1 eq_refl).
    unfold set_pc. cbn [WriteMutex ReadMutex ReadCounter IsCondVarWaiting threads].
    rewrite list_insert_insert_eq.
    do 2 run_line Hlt.
    rewrite (list_insert_id l t Idle Hp). reflexivity.
Qed.

Lemma WriteLock_WriteUnlock_round_trip_witness :
  exists s1,
    perform 0%nat (init 1) Rwmx_WriteLock = Some s1 /\
    holds_exclusive s1 0%nat /\
    WriteMutex s1 = Some 0%nat /\
    perform 0%nat s1 Rwmx_WriteUnlock = Some (init 1).
Proof.
  apply (WriteLock_WriteUnlock_round_trip 1 (init 1) 0%nat);
    [apply reach_init | reflexivity | reflexivity | cbn; lia].
Defined.




(** *** The wrapper *)

Lemma incr_decr (x : Z) : SizeT.in_range x -> SizeT.decr (SizeT.incr x) = x.
Proof.
  unfold SizeT.in_range, SizeT.decr, SizeT.incr, SizeT.wrap, SizeT.modulus.
  intros H. destruct (Z.eq_dec x (2 ^ 64 - 1)) as [-> | Hne]; [reflexivity |].
  rewrite (Z.mod_small (x + 1)) by lia.
  replace (x + 1 - 1) with x by lia. apply Z.mod_small. lia.
Qed.

Lemma incr_is_one (x : Z) :
  SizeT.in_range x -> (SizeT.incr x =? 1) = (x =? 0).
Proof.
  unfold SizeT.in_range, SizeT.incr, SizeT.wrap, SizeT.modulus. intros H.
  destruct (Z.eq_dec x (2 ^ 64 - 1)) as [-> | Hne]; [reflexivity |].
  rewrite (Z.mod_small (x + 1)) by lia.
  destruct (Z.eqb_spec (x + 1) 1), (Z.eqb_spec x 0); try reflexivity; lia.
Qed.

(** X14.  In the wrapper a lock followed by its unlock restores the two
    depths, whatever they were (also at the ends of the [std::size_t]
    range).  [ReadLock; ReadUnlock] calls [Rwmx] (lock, then unlock) only at
    depths 0/0; [WriteLock; WriteUnlock] calls [Rwmx] only at write depth 0,
    giving up and taking back the shared hold around the exclusive one when
    the read depth is positive. *)
Theorem lock_then_unlock_restores (st : thread_locals) :
  wf st ->
  let rd := LocalThreadReadLockCounter st in
  let wd := LocalThreadWriteLockCounter st in
  (locals_after [OpReadLock; OpReadUnlock] st = st /\
   trace [OpReadLock; OpReadUnlock] st =
     if (wd =? 0) && (rd =? 0)
     then [Rwmx_ReadLock; Rwmx_ReadUnlock] else []) /\
  (locals_after [OpWriteLock; OpWriteUnlock] st = st /\
   trace [OpWriteLock; OpWriteUnlock] st =
     if wd =? 0
     then (if 0 <? rd
           then [Rwmx_ReadUnlock; Rwmx_WriteLock;
                 Rwmx_WriteUnlock; Rwmx_ReadLock]
           else [Rwmx_WriteLock; Rwmx_WriteUnlock])
     else []).
Proof.
  intros [Hr Hw] rd wd. subst rd wd. destruct st as [rd wd].
  cbn [LocalThreadReadLockCounter LocalThreadWriteLockCounter] in *.
  unfold trace, locals_after.
  cbn [calls_each concat fold_left method app].
  split.
  - unfold_method.
    destruct (Z.eqb_spec wd 0) as [-> | Hwd];
      cbn [fst snd LocalThreadReadLockCounter LocalThreadWriteLockCounter andb].
    + rewrite Z.eqb_refl. cbn [fst snd LocalThreadReadLockCounter
        LocalThreadWriteLockCounter].
      rewrite (incr_decr rd Hr), (incr_is_one rd Hr).
      split; [reflexivity |].
      destruct (rd =? 0); reflexivity.
    + destruct (Z.eqb_spec wd 0); [contradiction |]. split; reflexivity.
  - unfold_method. rewrite (incr_decr wd Hw), (incr_is_one wd Hw).
    split; [reflexivity |].
    destruct (wd =? 0); [| reflexivity].
    destruct (0 <? rd); reflexivity.
Qed.

Lemma lock_then_unlock_restores_witness :
  locals_after [OpWriteLock; OpWriteUnlock] (TLS 2 0) = TLS 2 0 /\
  trace [OpWriteLock; OpWriteUnlock] (TLS 2 0) =
    [Rwmx_ReadUnlock; Rwmx_WriteLock; Rwmx_WriteUnlock; Rwmx_ReadLock].
Proof.
  apply (lock_then_unlock_restores (TLS 2 0)).
  unfold wf, SizeT.in_range, SizeT.modulus. cbn. lia.
Defined.

(** X16.  After a whole balanced sequence (shorter than 2^64) the thread is
    as it started: both depths 0, nothing held; and the calls it made on
    [Rwmx], run on the lock by the thread alone, all return and leave the
    lock in its initial state. *)
Theorem balanced_returns_to_fresh (ops : list op) :
  balanced ops = true ->
  Z.of_nat (length ops) < SizeT.modulus ->
  run_ops ops fresh = fresh /\
  locals_after ops clean = clean /\
  perform_all 0%nat (trace ops clean) (init 1) = Some (init 1).
Proof.
  intros Hb Hlen. unfold balanced in Hb.
  destruct (nesting [] ops) as [[| k final] |] eqn:Hn; try discriminate.
  assert (Hfresh : models [] fresh) by (split; reflexivity).
  assert (Hk : Z.of_nat (length (@nil kind) + length ops) < SizeT.modulus)
    by (change (length (@nil kind)) with 0%nat; lia).
  pose proof (run_models ops [] [] fresh Hfresh Hn Hk) as [Hl Hh].
  pose proof (ops_on_lock ops [] [] fresh Hfresh Hn Hk) as Hrun.
  assert (Hrun_eq : run_ops ops fresh = fresh)
    by (apply thread_eq; [exact Hl | exact Hh]).
  split; [exact Hrun_eq |]. split.
  - pose proof (run_locals ops fresh) as Hloc. rewrite Hrun_eq in Hloc.
    symmetry. exact Hloc.
  - rewrite Hrun_eq in Hrun. exact Hrun.
Qed.

Lemma balanced_returns_to_fresh_witness :
  run_ops main_ops fresh = fresh /\
  perform_all 0%nat (trace main_ops clean) (init 1) = Some (init 1).
Proof.
  assert (Hb : balanced main_ops = true) by reflexivity.
  assert (Hl : Z.of_nat (length main_ops) < SizeT.modulus)
    by (unfold SizeT.modulus; simpl; lia).
  split.
  - apply (balanced_returns_to_fresh main_ops Hb Hl).
  - apply (balanced_returns_to_fresh main_ops Hb Hl).
Defined.

(** The calls of [main] up to line 259, on the lock. *)
Lemma balanced_runs_on_lock_witness :
  let th := run_ops (firstn 14 main_ops) fresh in
  exists s,
    perform_all 0%nat (trace (firstn 14 main_ops) clean) (init 1) = Some s /\
    reachable 1 s /\
    (holds_shared s 0%nat <->
       0 < LocalThreadReadLockCounter (locals th) /\
       LocalThreadWriteLockCounter (locals th) = 0) /\
    (holds_exclusive s 0%nat <->
       0 < LocalThreadWriteLockCounter (locals th)) /\
    (holds_shared s 0%nat <-> held_shared (held th) = true) /\
    (holds_exclusive s 0%nat <-> held_exclusive (held th) = true).
Proof.
  apply (balanced_runs_on_lock main_ops 14).
  - reflexivity.
  - unfold SizeT.modulus. simpl. lia.
Defined.

Lemma trace_app (a b : list op) (st : thread_locals) :
  trace (a ++ b) st = trace a st ++ trace b (locals_after a st).
Proof. unfold trace. rewrite calls_each_app, concat_app. reflexivity. Qed.

Lemma run_ops_app (a b : list op) (th : thread) :
  run_ops (a ++ b) th = run_ops b (run_ops a th).
Proof. unfold run_ops. apply fold_left_app. Qed.

Lemma ReadingFunc_rounds (n : nat) :
  run_ops (ReadingFunc_ops n) fresh = fresh /\
  trace (ReadingFunc_ops n) clean =
    concat (repeat [Rwmx_ReadLock; Rwmx_ReadUnlock] n).
Proof.
  induction n as [| n [IH1 IH2]]; [split; reflexivity |].
  unfold ReadingFunc_ops in *. cbn [repeat concat].
  rewrite run_ops_app, trace_app. split.
  - exact IH1.
  - change (locals_after [OpReadLock; OpReadUnlock] clean) with clean.
    rewrite IH2. reflexivity.
Qed.

Lemma WritingFunc_rounds (n : nat) :
  run_ops (WritingFunc_ops n) fresh = fresh /\
  trace (WritingFunc_ops n) clean =
    concat (repeat [Rwmx_ReadLock; Rwmx_ReadUnlock; Rwmx_WriteLock;
                    Rwmx_WriteUnlock; Rwmx_ReadLock; Rwmx_ReadUnlock] n).
Proof.
  induction n as [| n [IH1 IH2]]; [split; reflexivity |].
  unfold WritingFunc_ops in *. cbn [repeat concat].
  rewrite run_ops_app, trace_app. split.
  - exact IH1.
  - change (locals_after [OpReadLock; OpWriteLock; OpWriteUnlock;
                          OpReadUnlock] clean) with clean.
    rewrite IH2. reflexivity.
Qed.

(** X17.  The loops of the demo.  Every round of [ReadingFunc] makes the calls
    [ReadLock; ReadUnlock] on the lock and reads [Vec] holding it in shared
    mode.  Every round of [WritingFunc] makes six calls (the shared hold is
    given up before the exclusive one is taken, and taken back after it) and
    appends to [Vec] holding the lock in exclusive mode only.  After any
    number of rounds the thread holds nothing and its depths are 0. *)
Theorem demo_loops (n : nat) :
  (run_ops (ReadingFunc_ops n) fresh = fresh /\
   trace (ReadingFunc_ops n) clean =
     concat (repeat [Rwmx_ReadLock; Rwmx_ReadUnlock] n) /\
   held (run_ops (ReadingFunc_ops n ++ [OpReadLock]) fresh) = Hold 1 0) /\
  (run_ops (WritingFunc_ops n) fresh = fresh /\
   trace (WritingFunc_ops n) clean =
     concat (repeat [Rwmx_ReadLock; Rwmx_ReadUnlock; Rwmx_WriteLock;
                     Rwmx_WriteUnlock; Rwmx_ReadLock; Rwmx_ReadUnlock] n) /\
   held (run_ops (WritingFunc_ops n ++ [OpReadLock; OpWriteLock]) fresh)
     = Hold 0 1).
Proof.
  destruct (ReadingFunc_rounds n) as [HR1 HR2].
  destruct (WritingFunc_rounds n) as [HW1 HW2].
  split.
  - split; [exact HR1 |]. split; [exact HR2 |].
    rewrite run_ops_app, HR1. reflexivity.
  - split; [exact HW1 |]. split; [exact HW2 |].
    rewrite run_ops_app, HW1. reflexivity.
Qed.

(** *** Exclusion *)

(** X2.  In every execution of the methods in which the clients keep the
    protocol (a lock method is called by a thread that holds nothing,
    [ReadUnlock] by a thread whose own [ReadLock] was the last to return,
    [WriteUnlock] by one whose own [WriteLock] was), [Cv.wait] returns only
    after a notification, and the threads are no more than an [int] counts,
    the lock excludes: a thread that holds it exclusively is the only
    holder, and [ReadCounter] is the number of readers, 0 while a writer
    holds the lock.  The protocol is needed
    ([stray_unlock_breaks_exclusion]). *)
Theorem exclusion_when_only_notified (n : nat) (evs : list event) (s : state) :
  Z.of_nat n <= IntT.INT_MAX ->
  run_any evs (init n) = Some s ->
  keeps_protocol evs (init n) = true ->
  forallb notified_only evs = true ->
  mutual_exclusion s /\
  ReadCounter s = count_readers (threads s) /\
  (forall t, holds_exclusive s t -> ReadCounter s = 0).
Proof.
  intros Hn Hrun Hk Hok.
  apply (notified_only_excludes n s Hn).
  apply (protocol_reachable notified_only n evs s Hok Hrun Hk).
Qed.

Lemma exclusion_when_only_notified_witness :
  mutual_exclusion one_writer_state /\
  ReadCounter one_writer_state = count_readers (threads one_writer_state) /\
  (forall t, holds_exclusive one_writer_state t ->
             ReadCounter one_writer_state = 0).
Proof.
  apply (exclusion_when_only_notified 2
           (Call 0%nat MWriteLock :: repeat (Step 0%nat) 4) one_writer_state);
    [exact two_threads_fit | reflexivity | reflexivity | reflexivity].
Defined.

End UsageFacts.
